(** * wpmm: provisioning and introspection helpers

    A shallow embedding of the helper modules of wpmm
    (lib/utils/wordpress.js, the file-system helpers with [downloadFile]
    and [extractZip], and the [Dump] class), with the properties of the
    specification stated and settled against it.

    JavaScript strings are sequences of UTF-16 code units; they are
    modelled as lists of code units ([N]).  Objects used as dictionaries
    are finite maps from strings. *)

From Stdlib Require Import NArith ZArith QArith Lia Ascii String List.
From stdpp Require Import gmap list.

Set Default Proof Using "Type".

(** ** JavaScript strings *)

Module JSString.

Definition char := N.
Definition jsstring := list char.

(** A string literal of the source, as code units. *)
Definition js (s : string) : jsstring :=
  map N_of_ascii (list_ascii_of_string s).
#[global] Arguments js s%_string.

(** [s.startsWith(needle)] *)
Fixpoint startsWith (needle s : jsstring) : bool :=
  match needle, s with
  | [], _ => true
  | _ :: _, [] => false
  | a :: needle', b :: s' => N.eqb a b && startsWith needle' s'
  end.

(** [s.indexOf(needle)]; [None] stands for [-1]. *)
Fixpoint indexOf (needle s : jsstring) : option nat :=
  if startsWith needle s then Some 0%nat
  else match s with
       | [] => None
       | _ :: s' => S <$> indexOf needle s'
       end.

(** [s.includes(needle)] *)
Definition includes (needle s : jsstring) : bool :=
  match indexOf needle s with Some _ => true | None => false end.

(** [s.slice(a, b)], [s.slice(a)] and [s.substr(a)] for the non-negative
    indices the sources pass. *)
Definition slice (a b : nat) (s : jsstring) : jsstring :=
  take (b - a) (drop a s).
Definition sliceFrom (a : nat) (s : jsstring) : jsstring := drop a s.
Definition substr (a : nat) (s : jsstring) : jsstring := drop a s.

(** [s.split(sep)] for a one-character separator: never the empty array. *)
Fixpoint split (sep : char) (s : jsstring) : list jsstring :=
  match s with
  | [] => [[]]
  | c :: s' =>
      if N.eqb c sep then [] :: split sep s'
      else match split sep s' with
           | [] => [[c]]
           | p :: ps => (c :: p) :: ps
           end
  end.

(** [parts.join(sep)] *)
Fixpoint join (sep : jsstring) (parts : list jsstring) : jsstring :=
  match parts with
  | [] => []
  | [p] => p
  | p :: ps => p ++ sep ++ join sep ps
  end.

Definition slash : char := 47%N.
Definition newline : char := 10%N.

End JSString.
Import JSString.

(** ** Values and settled promises *)

(** What an [async] function of the sources hands back to its caller. *)
Inductive value :=
| VUndefined
| VString (s : jsstring)
| VObject                      (* the empty object [{}] *)
| VError (message : jsstring).  (* an [Error] instance *)

Inductive outcome :=
| Resolved (v : value)
| Rejected (e : value)
| NeverSettles.

(** ** The file-system helpers: [extractZip] *)

Module Fs.

(** One run of [extract(zipFilePath, {dir, onEntry})] of the extract-zip
    package, as [extractZip] observes it: the file names handed to
    [onEntry], in archive order, and the error the returned promise
    rejects with, if any. *)
Record extraction := {
  entries : list jsstring;
  failure : option jsstring
}.

(** [!commonRootPath]: [undefined] and the empty string are falsy. *)
Definition falsy (c : option jsstring) : bool :=
  match c with
  | None => true
  | Some [] => true
  | Some (_ :: _) => false
  end.

(** The [for] loop of the [else] branch, from index [i] on, over the
    entry parts not yet visited. *)
Fixpoint narrow (commonRootPath : jsstring) (parts : list jsstring) (i : nat)
  : jsstring :=
  match parts with
  | [] => commonRootPath
  | p :: parts' =>
      if bool_decide (split slash commonRootPath !! i = Some p)
      then narrow commonRootPath parts' (S i)
      else join [slash] (take i (split slash commonRootPath))
  end.

(** The [onEntry] callback, as a transition on [commonRootPath]. *)
Definition onEntry (commonRootPath : option jsstring) (fileName : jsstring)
  : option jsstring :=
  let entryPathParts := split slash fileName in
  if falsy commonRootPath then entryPathParts !! 0%nat
  else match commonRootPath with
       | Some c => Some (narrow c entryPathParts 0)
       | None => None
       end.

Definition ofRoot (c : option jsstring) : value :=
  match c with
  | None => VUndefined
  | Some s => VString s
  end.

Definition extractZip (run : extraction) : outcome :=
  let commonRootPath := fold_left onEntry (entries run) None in
  match failure run with
  | None => Resolved (ofRoot commonRootPath)
  | Some err => Resolved (VError err)
  end.

(** The common root as the specification words it: the first entry's
    top-level segment, narrowed by every later entry to the longest
    segment-wise prefix shared with it. *)
Fixpoint commonSegments (a b : list jsstring) : list jsstring :=
  match a, b with
  | x :: a', y :: b' =>
      if bool_decide (x = y) then x :: commonSegments a' b' else []
  | _, _ => []
  end.

Definition spec_narrow (candidate entry : jsstring) : jsstring :=
  join [slash] (commonSegments (split slash candidate) (split slash entry)).

Definition spec_commonRoot (names : list jsstring) : option jsstring :=
  match names with
  | [] => None
  | first :: rest =>
      Some (fold_left spec_narrow rest (hd [] (split slash first)))
  end.

(** *** [downloadFile] *)

(** The disk: what is found at a path. *)
Inductive node :=
| File (content : jsstring)
| Dir (children : list jsstring).

(** [fs.existsSync(p)] *)
Definition existsSync (disk : gmap jsstring node) (p : jsstring) : bool :=
  bool_decide (is_Some (disk !! p)).

(** The response handed to the callback of [https.get]. *)
Record response := {
  statusCode : option Z;        (* [undefined] when absent *)
  statusMessage : jsstring;
  location : option jsstring;   (* [response.headers.location] *)
  payload : jsstring
}.

Inductive reply :=
| Responds (r : response)
| TransportError (message : jsstring).   (* the ['error'] event *)

(** The surroundings of a download: what a GET of a URL brings, and
    whether a write stream on a path can be opened and finished. *)
Record environment := {
  get : jsstring → reply;
  writable : jsstring → bool
}.

(** What a download changes: the disk, and the GET requests issued so
    far (oldest first). *)
Record world := {
  disk : gmap jsstring node;
  requests : list jsstring
}.

Definition request (url : jsstring) (w : world) : world :=
  {| disk := disk w; requests := requests w ++ [url] |}.

(** The write stream on [p] once the body is piped into it and it is
    closed: the file is found at [p].  The disk is keyed by the path as
    the program spells it, which is how [downloadFile] looks at it, by
    [existsSync] of the same [targetFile]; the listing of the folder
    that the file lies in is not kept here. *)
Definition write (p content : jsstring) (w : world) : world :=
  {| disk := <[p := File content]> (disk w); requests := requests w |}.

(** [String(error)] of an [Error] with the given message. *)
Definition errorToString (message : jsstring) : jsstring :=
  match message with
  | [] => js "Error"
  | _ :: _ => js "Error: " ++ message
  end.

(** [new Error(error)] of the [catch] block. *)
Definition rethrown (message : jsstring) : value :=
  VError (errorToString message).

(** [!!response.headers.location] *)
Definition hasLocation (r : response) : bool :=
  match location r with
  | Some (_ :: _) => true
  | _ => false
  end.

(** [resolve(await downloadFile(location, targetFile))] in the callback
    of [https.get]: the outer promise resolves with what the inner
    download resolves with.  When the inner download rejects, the
    callback itself rejects, and neither [resolve] nor [reject] of the
    outer promise is ever called. *)
Definition afterRedirect (inner : option (outcome * world))
  : option (outcome * world) :=
  match inner with
  | Some (Resolved v, w') => Some (Resolved v, w')
  | Some (_, w') => Some (NeverSettles, w')
  | None => None
  end.

(** [downloadFile(url, targetFile)].  The recursion on redirects has no
    bound in the source; [fuel] bounds it here, and [None] is a chain of
    redirects longer than the fuel. *)
Fixpoint downloadFile (fuel : nat) (env : environment) (w : world)
  (url targetFile : jsstring) : option (outcome * world) :=
  match fuel with
  | O => None
  | S fuel' =>
      if existsSync (disk w) targetFile then Some (Resolved VUndefined, w)
      else
        let w := request url w in
        match get env url with
        | TransportError e => Some (Rejected (rethrown e), w)
        | Responds r =>
            let code := default 0%Z (statusCode r) in
            if (code >=? 400)%Z
            then Some (Rejected (rethrown (statusMessage r)), w)
            else if (code >? 300)%Z && (code <? 400)%Z && hasLocation r
            then
              afterRedirect
                (downloadFile fuel' env w (default [] (location r)) targetFile)
            else if writable env targetFile
            then Some (Resolved VObject, write targetFile (payload r) w)
            else Some (NeverSettles, w)
        end
  end.

End Fs.

(** ** Regular expressions

    A backtracking matcher in the style of the ECMAScript pattern
    semantics, for the constructs the sources use: characters and
    classes, sequence, alternation, greedy and lazy repetition, capture
    groups and the end-of-input assertion. *)

Module Regex.

Inductive regex :=
| Eps
| Chr (p : char → bool)              (* one code unit satisfying [p] *)
| Seq (r1 r2 : regex)
| Alt (r1 r2 : regex)                (* [r1|r2], the left one first *)
| Star (greedy : bool) (r : regex)   (* [r*] and [r*?] *)
| Group (i : nat) (r : regex)        (* the [i]-th capture group *)
| EndOfInput.                        (* [$] without the [m] flag *)

Definition captures := list (option jsstring).
Definition cont := jsstring → captures → option (jsstring * captures).

Definition orElse {A} (a b : option A) : option A :=
  match a with Some x => Some x | None => b end.

(** [run r s caps k]: match [r] at the head of [s], then continue with
    [k] on what is left; [None] is failure, which makes the caller
    backtrack.  An iteration of a repetition that consumes nothing is
    refused, as RepeatMatcher does. *)
Fixpoint run (r : regex) (s : jsstring) (caps : captures) (k : cont)
  {struct r} : option (jsstring * captures) :=
  match r with
  | Eps => k s caps
  | Chr p =>
      match s with
      | c :: s' => if p c then k s' caps else None
      | [] => None
      end
  | Seq r1 r2 => run r1 s caps (fun s' caps' => run r2 s' caps' k)
  | Alt r1 r2 => orElse (run r1 s caps k) (run r2 s caps k)
  | Star greedy r1 =>
      (fix loop (n : nat) (s : jsstring) (caps : captures) {struct n} :=
         match n with
         | O => k s caps
         | S n' =>
             let again :=
               run r1 s caps (fun s' caps' =>
                 if (length s' <? length s)%nat then loop n' s' caps'
                 else None) in
             if greedy then orElse again (k s caps)
             else orElse (k s caps) again
         end) (length s) s caps
  | Group i r1 =>
      run r1 s caps (fun s' caps' =>
        k s' (<[i := Some (take (length s - length s') s)]> caps'))
  | EndOfInput =>
      match s with
      | [] => k s caps
      | _ :: _ => None
      end
  end.

(** A pattern with its number of capture groups. *)
Record pattern := { body : regex; ngroups : nat }.

(** A match: where it starts, the captures (index 0 is the matched
    text) and the input after it. *)
Record result := {
  index : nat;
  groups : captures;
  rest : jsstring
}.

Definition matched (m : result) : jsstring :=
  default [] (mjoin (groups m !! 0%nat)).

Definition matchAt (p : pattern) (s : jsstring)
  : option (jsstring * captures) :=
  run (body p) s (replicate (S (ngroups p)) None)
      (fun s' caps' => Some (s', caps')).

(** The leftmost match in [s], which starts at offset [i] of the input. *)
Fixpoint search (p : pattern) (i : nat) (s : jsstring) : option result :=
  match matchAt p s with
  | Some (s', caps) =>
      Some {| index := i;
              groups := <[0%nat := Some (take (length s - length s') s)]> caps;
              rest := s' |}
  | None =>
      match s with
      | [] => None
      | _ :: s' => search p (S i) s'
      end
  end.

(** [regex.exec(s)] with [lastIndex] 0. *)
Definition exec (p : pattern) (s : jsstring) : option result := search p 0 s.

(** [s.matchAll(regex)] for a global regex: the successive matches, the
    search restarting where the last one ended (one further on after an
    empty match). *)
Fixpoint matchAllFrom (fuel : nat) (p : pattern) (i : nat) (s : jsstring)
  : list result :=
  match fuel with
  | O => []
  | S fuel' =>
      match search p i s with
      | None => []
      | Some m =>
          let e := (i + (length s - length (rest m)))%nat in
          m :: (if bool_decide (matched m = [])
                then match rest m with
                     | [] => []
                     | _ :: s' => matchAllFrom fuel' p (S e) s'
                     end
                else matchAllFrom fuel' p e (rest m))
      end
  end.

Definition matchAll (p : pattern) (s : jsstring) : list result :=
  matchAllFrom (S (length s)) p 0 s.

Definition isDigit (c : char) : bool := (48 <=? c)%N && (c <=? 57)%N.

(** GetSubstitution: the expansion of a replacement template. *)
Fixpoint getSubstitution (m : result) (before : jsstring)
  (template : jsstring) : jsstring :=
  let capture (n : nat) (ref : jsstring) : jsstring :=
    if bool_decide (1 ≤ n ≤ length (groups m) - 1)%nat
    then default [] (mjoin (groups m !! n))
    else ref in
  let digit (c : char) : nat := N.to_nat (c - 48) in
  match template with
  | [] => []
  | 36%N :: t1 =>
      match t1 with
      | 36%N :: t2 => 36%N :: getSubstitution m before t2
      | 96%N :: t2 => before ++ getSubstitution m before t2
      | 38%N :: t2 => matched m ++ getSubstitution m before t2
      | 39%N :: t2 => rest m ++ getSubstitution m before t2
      | d1 :: t2 =>
          if isDigit d1 then
            match t2 with
            | d2 :: t3 =>
                if isDigit d2
                   && bool_decide (digit d1 * 10 + digit d2
                                   ≤ length (groups m) - 1)%nat
                then capture (digit d1 * 10 + digit d2)%nat [36%N; d1; d2]
                       ++ getSubstitution m before t3
                else capture (digit d1) [36%N; d1]
                       ++ getSubstitution m before t2
            | [] => capture (digit d1) [36%N; d1]
            end
          else 36%N :: getSubstitution m before t1
      | [] => [36%N]
      end
  | c :: t1 => c :: getSubstitution m before t1
  end.

(** [s.replace(regex, template)] for a regex without the [g] flag: only
    the leftmost match is rewritten. *)
Definition replace (p : pattern) (template s : jsstring) : jsstring :=
  match exec p s with
  | None => s
  | Some m =>
      let before := take (index m) s in
      before ++ getSubstitution m before template ++ rest m
  end.

(** *** Pattern syntax *)

#[local] Open Scope N_scope.

Definition char_is (c : char) : regex := Chr (N.eqb c).

(** Canonicalize for the [i] flag, on the ASCII letters of a pattern. *)
Definition upper (c : char) : char :=
  if (97 <=? c) && (c <=? 122) then c - 32 else c.
Definition char_is_i (c : char) : regex :=
  Chr (fun x => N.eqb (upper x) (upper c)).

Fixpoint lit (s : jsstring) : regex :=
  match s with
  | [] => Eps
  | c :: s' => Seq (char_is c) (lit s')
  end.

Fixpoint lit_i (s : jsstring) : regex :=
  match s with
  | [] => Eps
  | c :: s' => Seq (char_is_i c) (lit_i s')
  end.

Definition plus (r : regex) : regex := Seq r (Star true r).
Definition opt (r : regex) : regex := Alt r Eps.

Definition inRange (lo hi c : char) : bool := (lo <=? c) && (c <=? hi).

(** [\s]: white space and line terminators. *)
Definition isSpace (c : char) : bool :=
  inRange 9 13 c || N.eqb c 32 || N.eqb c 160 || N.eqb c 5760
  || inRange 8192 8202 c || N.eqb c 8232 || N.eqb c 8233
  || N.eqb c 8239 || N.eqb c 8287 || N.eqb c 12288 || N.eqb c 65279.

(** [.]: anything but a line terminator. *)
Definition isDot (c : char) : bool :=
  negb (N.eqb c 10 || N.eqb c 13 || N.eqb c 8232 || N.eqb c 8233).

Definition quote : char := 39.
Definition dquote : char := 34.
Definition notQuote (c : char) : bool := negb (N.eqb c quote).
Definition notAnyQuote (c : char) : bool :=
  negb (N.eqb c quote || N.eqb c dquote).
Definition anyQuote (c : char) : bool := N.eqb c quote || N.eqb c dquote.

Definition spaces : regex := Star true (Chr isSpace).

End Regex.

(** ** lib/utils/wordpress.js *)

Module WordPress.
Import Regex.

(** *** [uncommentedLines] *)

Definition blockOpen : jsstring := js "/*".
Definition blockClose : jsstring := js "*/".
Definition lineComment : jsstring := js "//".

(** One turn of the loop over the lines: the line as it is appended,
    and [inBlockComment] after it. *)
Definition uncommentLine (inBlockComment : bool) (line : jsstring)
  : jsstring * bool :=
  let '(newLine, inBlockComment) :=
    if inBlockComment then
      match indexOf blockClose line with
      | Some endCommentIndex => (substr (endCommentIndex + 2) line, false)
      | None => ([], true)
      end
    else (line, false) in
  if inBlockComment then (newLine, inBlockComment)
  else
    let '(newLine, inBlockComment) :=
      match indexOf blockOpen newLine, indexOf blockClose newLine with
      | Some startCommentIndex, Some endCommentIndex =>
          (slice 0 startCommentIndex newLine
             ++ sliceFrom (endCommentIndex + 2) newLine, false)
      | Some startCommentIndex, None =>
          (slice 0 startCommentIndex newLine, true)
      | None, _ => (newLine, false)
      end in
    let newLine :=
      match indexOf lineComment newLine with
      | Some lineCommentIndex => slice 0 lineCommentIndex newLine
      | None => newLine
      end in
    (newLine, inBlockComment).

Fixpoint uncommentLoop (lines : list jsstring) (inBlockComment : bool)
  (uncommented : jsstring) : jsstring :=
  match lines with
  | [] => uncommented
  | line :: lines' =>
      let '(newLine, inBlockComment) := uncommentLine inBlockComment line in
      uncommentLoop lines' inBlockComment (uncommented ++ newLine ++ [newline])
  end.

Definition uncommentedLines (content : jsstring) : jsstring :=
  uncommentLoop (split newline content) false [].

(** *** [parseWpConfig] *)

(** The pattern of [defineRegex], with the flags [g] and [i]: the word
    define and an opening parenthesis; a name then a value, each
    between single quotes and captured, a comma between them; a
    closing parenthesis and a semicolon; white space allowed around
    the name, the comma and the value. *)
Definition defineRegex : pattern :=
  {| body :=
       Seq (lit_i (js "define("))
      (Seq spaces
      (Seq (char_is quote)
      (Seq (Group 1 (Star true (Chr notQuote)))
      (Seq (char_is quote)
      (Seq spaces
      (Seq (lit_i (js ","))
      (Seq spaces
      (Seq (char_is quote)
      (Seq (Group 2 (Star true (Chr notQuote)))
      (Seq (char_is quote)
      (Seq spaces
           (lit_i (js ");")))))))))))));
     ngroups := 2 |}.

Definition isIdentStart (c : char) : bool :=
  (inRange 97 122 c || inRange 65 90 c || N.eqb c 95 || inRange 127 255 c)%N.
Definition isIdentPart (c : char) : bool :=
  isIdentStart c || inRange 48%N 57%N c.

(** The pattern of [variableRegex], with the flag [g]: a dollar sign
    and an identifier (captured); an equals sign with optional white
    space around it; an optional quote of either kind; the value
    (captured): as few characters of a line as possible, then one
    character that is not a quote; an optional quote again; and one of
    a semicolon, a PHP closing tag, white space before a closing tag,
    or the end of the text. *)
Definition variableRegex : pattern :=
  {| body :=
       Seq (lit (js "$"))
      (Seq (Group 1 (Seq (Chr isIdentStart) (Star true (Chr isIdentPart))))
      (Seq spaces
      (Seq (lit (js "="))
      (Seq spaces
      (Seq (opt (Chr anyQuote))
      (Seq (Group 2 (Seq (Star false (Chr isDot)) (Chr notAnyQuote)))
      (Seq (opt (Chr anyQuote))
           (Alt (lit (js ";"))
           (Alt (lit (js "?>"))
           (Alt (Seq (plus (Chr isSpace)) (lit (js "?>")))
                EndOfInput))))))))));
     ngroups := 2 |}.

(** A capture as the value it is in the match array. *)
Definition capture (m : result) (i : nat) : value :=
  match mjoin (groups m !! i) with
  | Some s => VString s
  | None => VUndefined
  end.

(** A capture used as a property key. *)
Definition captureKey (m : result) (i : nat) : jsstring :=
  match mjoin (groups m !! i) with
  | Some s => s
  | None => js "undefined"
  end.

(** [obj[key] = v] on an object created by [{}], whose own properties
    are the map: the key [__proto__] is the accessor inherited from
    [Object.prototype], whose setter ignores a value that is neither an
    object nor [null] and adds no own property. *)
Definition assign (obj : gmap jsstring value) (key : jsstring) (v : value)
  : gmap jsstring value :=
  if bool_decide (key = js "__proto__") then obj else <[key := v]> obj.

Definition collect (matches : list result) : gmap jsstring value :=
  fold_left (fun obj m => assign obj (captureKey m 1) (capture m 2))
            matches ∅.

(** The textually last of the matches whose first capture is [key]. *)
Definition lastMatch (key : jsstring) (matches : list result)
  : option result :=
  last (filter (fun m => captureKey m 1 = key) matches).

Record parsed := {
  constants : gmap jsstring value;
  variables : gmap jsstring value
}.

(** [parseWpConfig(wpFolder)], from what [fs.readFileSync] finds at
    [wp-config.php]: [None] is a read that throws, and the [null] the
    [catch] block then returns. *)
Definition parseWpConfig (file : option jsstring) : option parsed :=
  match file with
  | None => None
  | Some content =>
      let wpConfigContent := uncommentedLines content in
      Some {| constants := collect (matchAll defineRegex wpConfigContent);
              variables := collect (matchAll variableRegex wpConfigContent) |}
  end.

(** *** [replaceDbConstant] *)

(** The pattern built by [replaceDbConstant]: as [defineRegex] without
    flags and captures, with [constantName] for the name.
    [constantName] is spliced into the pattern text.  This is the
    pattern for a name of letters, digits and underscores, which the
    pattern text reads as the characters it is made of; a name with
    other characters, which the pattern text may read as operators, is
    outside of what is described here, and the properties below are
    stated for names of the first kind. *)
Definition dbConstantRegex (constantName : jsstring) : pattern :=
  {| body :=
       Seq (lit (js "define("))
      (Seq spaces
      (Seq (char_is quote)
      (Seq (lit constantName)
      (Seq (char_is quote)
      (Seq spaces
      (Seq (lit (js ","))
      (Seq spaces
      (Seq (char_is quote)
      (Seq (Star true (Chr notQuote))
      (Seq (char_is quote)
      (Seq spaces
           (lit (js ");")))))))))))));
     ngroups := 0 |}.

Definition replaceDbConstant (configContent constantName userDefinedValue
  : jsstring) : jsstring :=
  replace (dbConstantRegex constantName)
    (js "define( '" ++ constantName ++ js "', '" ++ userDefinedValue
       ++ js "' );")
    configContent.

(** *** [generateSalt] *)

Definition charset : jsstring :=
  js "abcdefghijklmnopqrstuvwxyzABCDEFGHIJKLMNOPQRSTUVWXYZ0123456789!@#$%^&*()-_=+[]{}|;:,.<>?/".
Definition saltLength : nat := 64.

(** A finite double that is not negative, as [Math.random()] returns
    one: the number [mantissa * 2^exponent].  A number may have several
    such writings; what follows depends on the number only. *)
Record double := {
  mantissa : Z;
  exponent : Z
}.

(** The doubles: at most 53 bits of significand, exponents from -1074
    to 971. *)
Definition isDouble (x : double) : Prop :=
  (0 ≤ mantissa x < 2 ^ 53)%Z ∧ (-1074 ≤ exponent x ≤ 971)%Z.

(** The number that a double stands for. *)
Definition toQ (x : double) : Q :=
  if (0 <=? exponent x)%Z then inject_Z (mantissa x * 2 ^ exponent x)
  else mantissa x # Z.to_pos (2 ^ (- exponent x)).

(** [m / 2^s] rounded to the nearest integer, ties to the even one. *)
Definition roundShift (m s : Z) : Z :=
  let q := Z.shiftr m s in
  let r := (m - Z.shiftl q s)%Z in
  let half := Z.shiftl 1 (s - 1) in
  if (r <? half)%Z then q
  else if (half <? r)%Z then (q + 1)%Z
  else if Z.even q then q else (q + 1)%Z.

(** [x * n] of the double arithmetic, for a natural number [n] below
    2^53 such as [charset.length]: the exact product, rounded to 53 bits
    of significand (to nearest, ties to even) when it has more.  The
    exponent only grows, so nothing is lost below; a product below
    2^1024, as that of a number below 1, does not overflow. *)
Definition times (x : double) (n : Z) : double :=
  let m := (mantissa x * n)%Z in
  let s := (Z.log2 m + 1 - 53)%Z in
  if (s <=? 0)%Z then {| mantissa := m; exponent := exponent x |}
  else {| mantissa := roundShift m s; exponent := exponent x + s |}.

(** [Math.floor(x)] *)
Definition floor (x : double) : Z := Z.shiftl (mantissa x) (exponent x).

(** [charset[Math.floor(r * charset.length)]] for the number [r] that
    [Math.random()] returned; [None] is [undefined], an index outside
    of the string. *)
Definition draw (r : double) : option char :=
  let i := floor (times r (Z.of_nat (length charset))) in
  if (i <? 0)%Z then None else charset !! Z.to_nat i.

(** [generateSalt()], from the numbers the successive calls of
    [Math.random()] return.  [join('')] writes nothing for [undefined]. *)
Definition generateSalt (random : nat → double) : jsstring :=
  concat (map (fun k => match draw (random k) with
                        | Some c => [c]
                        | None => []
                        end)
              (seq 0 saltLength)).

(** *** [getWordPressPaths] *)

Record config := {
  name : option jsstring   (* [config.name]; [None] is [undefined] or [null] *)
}.

Record WPMMpaths := {
  tempDir : jsstring;
  baseFolder : jsstring;
  pluginsFolder : jsstring;
  themeFolder : jsstring
}.

Section Paths.

(** [path.join] of Node, and the two constants that the module takes
    from [../constants.js]. *)
Variable path_join : list jsstring → jsstring.
Variables pkgFileName defaultWpInstallFolder : jsstring.

Definition getWordPressPaths (disk : gmap jsstring Fs.node)
  (config : config) (rootFolder : jsstring) : WPMMpaths :=
  let baseFolder :=
    if negb (Fs.existsSync disk (path_join [rootFolder; js "wp-config.php"]))
       && negb (Fs.existsSync disk (path_join [rootFolder; pkgFileName]))
    then path_join [rootFolder; default defaultWpInstallFolder (name config)]
    else rootFolder in
  {| tempDir := path_join [rootFolder; js "temp"];
     baseFolder := baseFolder;
     pluginsFolder := path_join [baseFolder; js "wp-content"; js "plugins"];
     themeFolder := path_join [baseFolder; js "wp-content"; js "themes"] |}.

End Paths.

End WordPress.

(** ** The [Dump] class *)

Module Dump.
Import Regex Fs.

Record item := {
  name : jsstring;
  version : jsstring
}.

(** [fs.readFileSync(p, 'utf8')], [fs.statSync(p).isDirectory()] and
    [fs.readdirSync(p)]; [None] is a call that throws.  A relative path
    is a key of the disk as the process sees it from its working
    directory. *)
Definition readFileSync (disk : gmap jsstring node) (p : jsstring)
  : option jsstring :=
  match disk !! p with
  | Some (File content) => Some content
  | _ => None
  end.

Definition isDirectory (disk : gmap jsstring node) (p : jsstring)
  : option bool :=
  match disk !! p with
  | Some (Dir _) => Some true
  | Some (File _) => Some false
  | None => None
  end.

Definition readdirSync (disk : gmap jsstring node) (p : jsstring)
  : option (list jsstring) :=
  match disk !! p with
  | Some (Dir children) => Some children
  | _ => None
  end.

Definition isVersionChar (c : char) : bool := isDigit c || N.eqb c 46.

(** The pattern of both extractors, with the flag [i]: the word
    Version and a colon, optional white space, and a captured run of
    digits and dots. *)
Definition versionRegex : pattern :=
  {| body := Seq (lit_i (js "Version:"))
            (Seq spaces (Group 1 (plus (Chr isVersionChar))));
     ngroups := 1 |}.

(** [match ? match[1] : null]; the inner [None] is [null]. *)
Definition extractVersionFromStyleFile (disk : gmap jsstring node)
  (filePath : jsstring) : option (option jsstring) :=
  content ← readFileSync disk filePath;
  Some (m ← exec versionRegex content; mjoin (groups m !! 1%nat)).

Definition extractVersionFromPHPFile (disk : gmap jsstring node)
  (filePath : jsstring) : option (option jsstring) :=
  content ← readFileSync disk filePath;
  Some (m ← exec versionRegex content; mjoin (groups m !! 1%nat)).

(** [if (version)]: [null] and the empty string are falsy. *)
Definition truthy (version : option jsstring) : bool :=
  match version with
  | Some (_ :: _) => true
  | _ => false
  end.

(** [result.push({ name: item, version })] under [if (version)]. *)
Definition pushVersion (result : list item) (item : jsstring)
  (version : option jsstring) : list Dump.item :=
  if truthy version
  then result ++ [{| name := item; version := default [] version |}]
  else result.

(** What one child may add to the result: at most [n] items, all under
    its name. *)
Definition addsAtMost (n : nat) (child : jsstring) (added : list item)
  : Prop :=
  (length added ≤ n)%nat ∧ Forall (fun i => name i = child) added.

Section Scan.

Variable path_join : list jsstring → jsstring.
Variable disk : gmap jsstring node.

(** The body of the loop over the children of [directory], on the
    [result] array so far. *)
Definition scanItem (directory : jsstring) (result : list item)
  (item : jsstring) : option (list Dump.item) :=
  let fullPath := path_join [directory; item] in
  isDir ← isDirectory disk fullPath;
  if isDir : bool then
    let stylePath := path_join [fullPath; js "style.css"] in
    let themeFile := path_join [fullPath; item ++ js ".php"] in
    let pluginFile := item ++ js ".php" in
    result ←
      (if existsSync disk stylePath then
         version ← extractVersionFromStyleFile disk stylePath;
         Some (pushVersion result item version)
       else Some result);
    if existsSync disk themeFile || existsSync disk pluginFile then
      first ← extractVersionFromPHPFile disk themeFile;
      version ←
        (if truthy first then Some first
         else extractVersionFromPHPFile disk pluginFile);
      Some (pushVersion result item version)
    else Some result
  else Some result.

Fixpoint scanLoop (directory : jsstring) (items : list jsstring)
  (result : list item) : option (list item) :=
  match items with
  | [] => Some result
  | item :: items' =>
      result ← scanItem directory result item;
      scanLoop directory items' result
  end.

Definition scanDirectory (directory : jsstring) : option (list item) :=
  items ← readdirSync disk directory;
  scanLoop directory items [].

End Scan.

End Dump.

(** ** lib/utils/wordpress.js, the other helpers *)

Module Templates.
Import Regex Fs WordPress.

(** *** [getDataFromFile] and [getCurrentWpInfo] *)

(** The pattern of [getDataFromFile], with the flag [g]: the variable
    name, an equals sign with optional white space around it, a quote
    of either kind, a captured run of one or more characters that are
    not quotes, and a quote of either kind.  [variableName] is spliced
    into the pattern text.  This is the pattern for a name of letters,
    digits and underscores, as the two names that [getCurrentWpInfo]
    passes, which the pattern text reads as the characters it is made
    of; other names are outside of what is described here. *)
Definition versionRegex (variableName : jsstring) : pattern :=
  {| body :=
       Seq (lit variableName)
      (Seq spaces
      (Seq (lit (js "="))
      (Seq spaces
      (Seq (Chr anyQuote)
      (Seq (Group 1 (plus (Chr notAnyQuote)))
           (Chr anyQuote))))));
     ngroups := 1 |}.

(** [match ? match[1] : null] on the first match; [None] is [null]. *)
Definition getDataFromFile (fileContent variableName : jsstring)
  : option jsstring :=
  m ← exec (versionRegex variableName) fileContent;
  mjoin (groups m !! 1%nat).

Record wpInfo := {
  version : option jsstring;
  locale : option jsstring
}.

(** [getCurrentWpInfo(wpFolder)]; the outer [None] is the read of
    [wp-includes/version.php] throwing. *)
Definition getCurrentWpInfo (path_join : list jsstring → jsstring)
  (disk : gmap jsstring node) (wpFolder : jsstring) : option wpInfo :=
  let versionFile := path_join [wpFolder; js "wp-includes"; js "version.php"] in
  versionFileContent ← Dump.readFileSync disk versionFile;
  Some {| version := getDataFromFile versionFileContent (js "wp_version");
          locale := getDataFromFile versionFileContent (js "wp_local_package") |}.

(** *** [replaceDbConstantBool] *)

(** The pattern of [replaceDbConstantBool]: as that of
    [replaceDbConstant], for a name of letters, digits and underscores
    as well, but the value is any run of characters other than the
    single quote, with no quotes around it. *)
Definition dbConstantBoolRegex (constantName : jsstring) : pattern :=
  {| body :=
       Seq (lit (js "define("))
      (Seq spaces
      (Seq (char_is quote)
      (Seq (lit constantName)
      (Seq (char_is quote)
      (Seq spaces
      (Seq (lit (js ","))
      (Seq spaces
      (Seq (Star true (Chr notQuote))
      (Seq spaces
           (lit (js ");")))))))))));
     ngroups := 0 |}.

(** [userDefinedValue] is the text that the template literal writes for
    the value (true or false for a boolean). *)
Definition replaceDbConstantBool (configContent constantName userDefinedValue
  : jsstring) : jsstring :=
  replace (dbConstantBoolRegex constantName)
    (js "define( '" ++ constantName ++ js "', " ++ userDefinedValue ++ js " );")
    configContent.

(** *** [replaceEmptySalts] *)

Definition saltConstants : list jsstring :=
  [ js "AUTH_KEY"; js "SECURE_AUTH_KEY"; js "LOGGED_IN_KEY"; js "NONCE_KEY";
    js "AUTH_SALT"; js "SECURE_AUTH_SALT"; js "LOGGED_IN_SALT";
    js "NONCE_SALT" ].

Definition placeholder : jsstring := js "put your unique phrase here".

(** The pattern [emptySaltRegex] built for a constant: its define
    statement with the placeholder phrase as the quoted value.  The
    constants are those of [saltConstants], names of letters and
    underscores that the pattern text reads as they are. *)
Definition emptySaltRegex (constant : jsstring) : pattern :=
  {| body :=
       Seq (lit (js "define("))
      (Seq spaces
      (Seq (char_is quote)
      (Seq (lit constant)
      (Seq (char_is quote)
      (Seq spaces
      (Seq (lit (js ","))
      (Seq spaces
      (Seq (char_is quote)
      (Seq (lit placeholder)
      (Seq (char_is quote)
      (Seq spaces
           (lit (js ");")))))))))))));
     ngroups := 0 |}.

(** One turn of the [forEach]: the replacement for [constant], with the
    salt generated for it. *)
Definition fillSalt (configContent constant generatedSalt : jsstring)
  : jsstring :=
  replace (emptySaltRegex constant)
    (js "define( '" ++ constant ++ js "', '" ++ generatedSalt ++ js "' );")
    configContent.

(** The [forEach] over the constants still to do.  Each turn calls
    [generateSalt] once, whether its pattern matches or not, which takes
    the next [saltLength] numbers of [Math.random]. *)
Fixpoint fillSalts (constants : list jsstring) (random : nat → double)
  (configContent : jsstring) : jsstring :=
  match constants with
  | [] => configContent
  | constant :: constants' =>
      let generatedSalt := generateSalt random in
      fillSalts constants' (fun k => random (saltLength + k)%nat)
        (fillSalt configContent constant generatedSalt)
  end.

Definition replaceEmptySalts (random : nat → double)
  (configContent : jsstring) : jsstring :=
  fillSalts saltConstants random configContent.

End Templates.

(** ** lib/index.js: the choice of the action *)

Module Index.

(** What [argv[key] === true] says of a value of [argv]. *)
Inductive flag := IsTrue | NotTrue.

(** The functions that [actions[action]] can be: the six of the object
    literal, and the functions that every object inherits from
    [Object.prototype]. *)
Inductive callee :=
| Info
| DumpSite
| Init
| UploadDatabase
| DumpDatabase
| Default
| Builtin (name : jsstring).

Definition ownActions : list (jsstring * callee) :=
  [ (js "info", Info); (js "dump", DumpSite); (js "init", Init);
    (js "upload-database", UploadDatabase);
    (js "dump-database", DumpDatabase); (js "default", Default) ].

Definition builtinFunctions : list jsstring :=
  [ js "constructor"; js "__defineGetter__"; js "__defineSetter__";
    js "hasOwnProperty"; js "__lookupGetter__"; js "__lookupSetter__";
    js "isPrototypeOf"; js "propertyIsEnumerable"; js "toString";
    js "valueOf"; js "toLocaleString" ].

(** [actions[key]] when it is a function. *)
Definition actions (key : jsstring) : option callee :=
  match List.find (fun kv => bool_decide (kv.1 = key)) ownActions with
  | Some (_, a) => Some a
  | None =>
      if bool_decide (key ∈ builtinFunctions) then Some (Builtin key) else None
  end.

(** [Object.keys(argv).find(key => argv[key] === true)]; [None] is
    [undefined]. *)
Definition isTrue (f : flag) : bool :=
  match f with IsTrue => true | NotTrue => false end.

Definition findAction (argv : list (jsstring * flag)) : option jsstring :=
  fst <$> List.find (fun kv => isTrue kv.2) argv.

Definition propertyKey (action : option jsstring) : jsstring :=
  match action with
  | Some key => key
  | None => js "undefined"
  end.

(** [(actions[action])()]: the function that is called; [None] is the
    TypeError of calling what is not a function. *)
Definition dispatch (argv : list (jsstring * flag)) : option callee :=
  actions (propertyKey (findAction argv)).

End Index.

(** ** Chains of redirects *)

Module Redirects.
Import Fs.

(** The response to [url] sends the download on to [next]. *)
Definition redirects (env : environment) (url next : jsstring) : Prop :=
  ∃ r, get env url = Responds r
       ∧ (300 < default 0 (statusCode r) < 400)%Z
       ∧ location r = Some next ∧ next ≠ [].

(** The response to [url] is one whose body is written: a status below
    400 that is not followed as a redirect. *)
Definition delivers (env : environment) (url content : jsstring) : Prop :=
  ∃ r, get env url = Responds r
       ∧ (default 0 (statusCode r) < 400)%Z
       ∧ ((default 0 (statusCode r) ≤ 300)%Z ∨ hasLocation r = false)
       ∧ payload r = content.

(** The response to [url] has a status of 400 or more, or the request
    fails in transport. *)
Definition fails (env : environment) (url : jsstring) : Prop :=
  (∃ r, get env url = Responds r ∧ (400 ≤ default 0 (statusCode r))%Z)
  ∨ ∃ e, get env url = TransportError e.

(** [url] leads through the URLs [hops], each redirecting to the next,
    to [final]. *)
Fixpoint leads (env : environment) (url : jsstring) (hops : list jsstring)
  (final : jsstring) : Prop :=
  match hops with
  | [] => url = final
  | next :: hops' => redirects env url next ∧ leads env next hops' final
  end.

End Redirects.

(** ** Patterns without capture groups *)

Module Patterns.
Import Regex.

Fixpoint groupFree (r : regex) : Prop :=
  match r with
  | Eps | Chr _ | EndOfInput => True
  | Seq r1 r2 | Alt r1 r2 => groupFree r1 ∧ groupFree r2
  | Star _ r1 => groupFree r1
  | Group _ _ => False
  end.


(** A pattern every match of which starts with the text [define(]. *)
Definition startsWithDefine (p : pattern) : Prop :=
  ∀ s x, matchAt p s = Some x → ∃ t, s = js "define(" ++ t.

(** A letter, a digit or an underscore: in the text of a pattern, a
    character that stands for itself. *)
Definition isWordChar (c : char) : bool :=
  (inRange 97 122 c || inRange 65 90 c || inRange 48 57 c || N.eqb c 95)%N.

(** A name of letters, digits and underscores, as [DB_NAME] or
    [wp_version].  Spliced into the text of a pattern between two
    quotes, or at its start, such a name is read as the characters it
    is made of; this is the case that the patterns with a name above
    describe. *)
Definition wordName (name : jsstring) : bool := forallb isWordChar name.

End Patterns.

(** ** Versions of the inventory *)

Module Inventory.
Import Regex.

(** A version as the header pattern captures it: a non-empty run of
    digits and dots. *)
Definition dotted (version : jsstring) : Prop :=
  version ≠ [] ∧ Forall (fun c => Dump.isVersionChar c = true) version.

(** The version that the file at [p] yields: the file can be read, and
    the first version header of its text captures a version that is not
    empty.  [None] is no such file, or no such header. *)
Definition yields (disk : gmap jsstring Fs.node) (p : jsstring)
  : option jsstring :=
  content ← Dump.readFileSync disk p;
  let version := m ← exec Dump.versionRegex content; mjoin (groups m !! 1%nat) in
  if Dump.truthy version then version else None.

Section Contribution.

Variable path_join : list jsstring → jsstring.
Variable disk : gmap jsstring Fs.node.
Variable directory : jsstring.

(** One item when the style sheet of the child yields a version. *)
Definition styleItems (child : jsstring) : list Dump.item :=
  match yields disk (path_join [path_join [directory; child]; js "style.css"])
  with
  | Some version => [ {| Dump.name := child; Dump.version := version |} ]
  | None => []
  end.

(** One item when the PHP file named after the child yields a version:
    the one in the folder of the child, or else the one of that name in
    the working directory. *)
Definition phpItems (child : jsstring) : list Dump.item :=
  match yields disk
          (path_join [path_join [directory; child]; child ++ js ".php"])
  with
  | Some version => [ {| Dump.name := child; Dump.version := version |} ]
  | None =>
      match yields disk (child ++ js ".php") with
      | Some version => [ {| Dump.name := child; Dump.version := version |} ]
      | None => []
      end
  end.

(** What a child of [directory] adds to the list: nothing unless it is
    a folder. *)
Definition contribution (child : jsstring) : list Dump.item :=
  match Dump.isDirectory disk (path_join [directory; child]) with
  | Some true => styleItems child ++ phpItems child
  | _ => []
  end.

End Contribution.

End Inventory.

(** ** Lines with one block comment *)

Module Comments.
Import WordPress.

(** A line with at most one block opener, and no block closer that
    ends before it. *)
Definition oneBlockComment (line : jsstring) : bool :=
  match indexOf blockOpen line with
  | None => true
  | Some startCommentIndex =>
      negb (includes blockClose (take startCommentIndex line))
      && negb (includes blockOpen (drop (S startCommentIndex) line))
  end.

(** A text all of whose lines are such lines.  Comments may run over
    several lines, and line comments may stand anywhere. *)
Definition tidy (content : jsstring) : bool :=
  forallb oneBlockComment (split newline content).

End Comments.

(** ** Shapes of parsed declarations *)

Module Shapes.
Import Regex WordPress.




End Shapes.

(** ** The candidates of the archive extractor *)

Module Roots.
Import Fs.

(** What the candidate is after the entries [seen]: unset before the
    first entry; afterwards empty, or the top-level segment of an entry
    that was seen. *)
Definition rootOf (seen : list jsstring) (c : option jsstring) : Prop :=
  match c with
  | None => seen = []
  | Some r => r = [] ∨ ∃ n, n ∈ seen ∧ split slash n !! 0%nat = Some r
  end.

End Roots.

(** ** Sample surroundings

    Servers and disks on which the properties below are tried. *)

Module Samples.
Import Fs.

Definition notFound : environment :=
  {| get := fun _ =>
       Responds {| statusCode := Some 404%Z; statusMessage := js "Not Found";
                   location := None; payload := js "<html>gone</html>" |};
     writable := fun _ => true |}.


Definition moved : environment :=
  {| get := fun u =>
       if bool_decide (u = js "https://wordpress.org/latest.zip")
       then Responds {| statusCode := Some 302%Z; statusMessage := js "Found";
                        location := Some (js "https://downloads.w.org/wp.zip");
                        payload := js "moved" |}
       else Responds {| statusCode := Some 200%Z; statusMessage := js "OK";
                        location := None; payload := js "PK" |};
     writable := fun _ => true |}.

(** A server that sends every request back to the same URL. *)
Definition redirectLoop : environment :=
  {| get := fun _ =>
       Responds {| statusCode := Some 301%Z;
                   statusMessage := js "Moved Permanently";
                   location := Some (js "https://wordpress.org/latest.zip");
                   payload := [] |};
     writable := fun _ => true |}.

(** A server that redirects the release URL to a file that is gone. *)
Definition movedAway : environment :=
  {| get := fun u =>
       if bool_decide (u = js "https://wordpress.org/latest.zip")
       then Responds {| statusCode := Some 302%Z; statusMessage := js "Found";
                        location := Some (js "https://downloads.w.org/gone.zip");
                        payload := js "moved" |}
       else Responds {| statusCode := Some 404%Z;
                        statusMessage := js "Not Found";
                        location := None; payload := js "gone" |};
     writable := fun _ => true |}.

(** [path.join] on plain segments: the segments with a slash between
    them. *)
Definition joinSegments : list jsstring → jsstring := join [slash].

(** A themes folder with one theme whose style sheet and main PHP file
    both carry a version header, and a stray file. *)
Definition themesDisk : gmap jsstring node :=
  list_to_map
    [(js "themes", Dir [js "foo"; js "index.php"]);
     (js "themes/index.php", File (js "<?php // Silence is golden."));
     (js "themes/foo", Dir [js "style.css"; js "foo.php"]);
     (js "themes/foo/style.css", File (js "/* Theme Name: Foo  Version: 2.3.1 */"));
     (js "themes/foo/foo.php", File (js "<?php /* Plugin Name: Foo  Version: 1.0 */"))].

(** A plugins folder whose only plugin is named as a PHP file that lies
    in the working directory, and has no main file of that name. *)
Definition pluginsDisk : gmap jsstring node :=
  list_to_map
    [(js "plugins", Dir [js "index"]);
     (js "plugins/index", Dir [js "readme.txt"]);
     (js "plugins/index/readme.txt", File (js "Version: 1.2"));
     (js "index.php", File (js "<?php // Silence is golden."))].

(** Numbers for [Math.random]: the multiples of 1/128 below 89/128, in
    turn. *)
Definition inTurn (k : nat) : WordPress.double :=
  {| WordPress.mantissa := Z.of_nat (k mod 89) * 2 ^ 46;
     WordPress.exponent := -53 |}.

(** A double of the unit interval, a little above [(i + 1/2) / 89]. *)
Definition towards (i : nat) : WordPress.double :=
  {| WordPress.mantissa := (2 * Z.of_nat i + 1) * 2 ^ 52 / 89 + 1;
     WordPress.exponent := -53 |}.

(** A configuration with a comment over two lines, a line comment, and
    a comment within a line. *)
Definition commented : jsstring :=
  js "<?php" ++ [newline] ++ js "/* the name" ++ [newline]
    ++ js "   of the database */ $a = 1; // one" ++ [newline]
    ++ js "$b = 2; /* two */ $c = 3;".

(** A folder that holds a [wp-package.json], and an empty one. *)
Definition siteDisk : gmap jsstring node :=
  list_to_map
    [(js "/srv/site", Dir [js "wp-package.json"]);
     (js "/srv/site/wp-package.json", File (js "{}"));
     (js "/srv/new", Dir [])].

End Samples.

(** ** Proof tools *)

(** Writes the literal [js lit] of hypothesis [H] as its code units. *)
Ltac literal H lit :=
  let v := eval vm_compute in (js lit) in change (js lit) with v in H.


(** * Properties *)

(** ** Strings *)

Section StringFacts.
Implicit Types (s p needle : jsstring) (sep c : char).

Lemma split_nonempty sep s : split sep s ≠ [].
Proof.
  destruct s as [|c s]; simpl; [done|].
  destruct (N.eqb c sep); [done|]. by destruct (split sep s).
Qed.

(** No part of a split holds the separator. *)
Lemma split_parts_free sep s p : p ∈ split sep s → sep ∉ p.
Proof.
  revert p. induction s as [|c s IH]; simpl; intros p Hp.
  - apply list_elem_of_singleton in Hp as ->. apply not_elem_of_nil.
  - destruct (N.eqb_spec c sep) as [->|Hne].
    + apply elem_of_cons in Hp as [->|Hp]; [apply not_elem_of_nil|auto].
    + destruct (split sep s) as [|q qs] eqn:E.
      * apply list_elem_of_singleton in Hp as ->.
        intros [?|H]%elem_of_cons; [done|]. by apply not_elem_of_nil in H.
      * apply elem_of_cons in Hp as [->|Hp].
        -- intros [?|H]%elem_of_cons; [done|].
           by apply (IH q); [left|].
        -- apply IH. by right.
Qed.

(** A string without the separator is its own single part. *)
Lemma split_free sep s : sep ∉ s → split sep s = [s].
Proof.
  induction s as [|c s IH]; simpl; intros Hs; [done|].
  apply not_elem_of_cons in Hs as [Hc Hs].
  destruct (N.eqb_spec c sep) as [->|_]; [done|]. by rewrite IH.
Qed.

(** Joining the parts with the separator gives the string back. *)
Lemma join_split sep s : join [sep] (split sep s) = s.
Proof.
  induction s as [|c s IH]; simpl; [done|].
  destruct (N.eqb_spec c sep) as [->|_].
  - pose proof (split_nonempty sep s).
    destruct (split sep s) as [|q qs]; [done|].
    simpl in *. by rewrite IH.
  - destruct (split sep s) as [|q qs] eqn:E; [by destruct (split_nonempty sep s)|].
    rewrite <- IH. by destruct qs.
Qed.

End StringFacts.

(** ** The archive extractor *)

Section ExtractZip.
Import Fs.

(** Once the candidate is a non-empty segment, an entry under that
    segment leaves it as it is. *)
Lemma onEntry_same_root (r fileName : jsstring) :
  r ≠ [] → slash ∉ r → split slash fileName !! 0%nat = Some r →
  onEntry (Some r) fileName = Some r.
Proof.
  intros Hr Hfree Hhd. unfold onEntry.
  destruct r as [|c r]; [done|]. cbn [falsy]. f_equal.
  destruct (split slash fileName) as [|p ps]; [done|].
  injection Hhd as ->. cbn [narrow].
  rewrite (split_free _ _ Hfree). cbn [lookup list_lookup].
  rewrite bool_decide_eq_true_2 by done.
  destruct ps as [|q ps]; [done|]. cbn [narrow].
  rewrite (split_free _ _ Hfree).
  by rewrite bool_decide_eq_false_2 by (intros H; discriminate H).
Qed.

Lemma fold_onEntry_same_root (r : jsstring) (names : list jsstring) :
  r ≠ [] → slash ∉ r →
  Forall (fun n => split slash n !! 0%nat = Some r) names →
  fold_left onEntry names (Some r) = Some r.
Proof.
  intros Hr Hfree. induction 1 as [|n names Hn _ IH]; [done|].
  simpl. by rewrite onEntry_same_root.
Qed.

(** When every entry lies under one non-empty top-level folder, that
    folder is what [extractZip] returns. *)
Lemma extractZip_shared_root (r first : jsstring) (names : list jsstring) :
  r ≠ [] →
  Forall (fun n => split slash n !! 0%nat = Some r) (first :: names) →
  extractZip {| entries := first :: names; failure := None |}
  = Resolved (VString r).
Proof.
  intros Hr Hall. apply Forall_cons in Hall as [Hfirst Hall].
  assert (slash ∉ r) as Hfree.
  { eapply split_parts_free, list_elem_of_lookup_2, Hfirst. }
  unfold extractZip. cbn [entries failure fold_left].
  assert (onEntry None first = Some r) as -> by exact Hfirst.
  by rewrite fold_onEntry_same_root.
Qed.

(** On such an archive the fold of the specification gives the same
    folder. *)
Lemma spec_commonRoot_shared_root (r first : jsstring) (names : list jsstring) :
  Forall (fun n => split slash n !! 0%nat = Some r) (first :: names) →
  spec_commonRoot (first :: names) = Some r.
Proof.
  intros Hall. apply Forall_cons in Hall as [Hfirst Hall].
  assert (slash ∉ r) as Hfree.
  { eapply split_parts_free, list_elem_of_lookup_2, Hfirst. }
  cbn [spec_commonRoot]. f_equal.
  assert (hd [] (split slash first) = r) as ->.
  { by destruct (split slash first) as [|? ?]; simplify_eq/=. }
  induction Hall as [|n names Hn _ IH]; [done|].
  cbn [fold_left]. unfold spec_narrow at 2. rewrite (split_free _ _ Hfree).
  destruct (split slash n) as [|p ps]; [done|]. injection Hn as ->.
  cbn [commonSegments]. rewrite bool_decide_eq_true_2 by done.
  by destruct ps.
Qed.

(** The example of the specification. *)
Lemma extractZip_example :
  extractZip {| entries := [js "pkg-1.0/a.txt"; js "pkg-1.0/sub/b.txt"];
                failure := None |}
  = Resolved (VString (js "pkg-1.0")).
Proof. reflexivity. Qed.

(** C1. The candidate is not only set on the first entry: after it has
    been narrowed to the empty string it counts as unset, and the next
    entry sets it again.  Three entries without a common ancestor give
    the top-level folder of the last one, where the fold of the
    specification gives the empty string. *)
Theorem extractZip_restarts_after_empty :
  extractZip {| entries := [js "a/x"; js "b/y"; js "c/z"]; failure := None |}
  = Resolved (VString (js "c"))
  ∧ spec_commonRoot [js "a/x"; js "b/y"; js "c/z"] = Some [].
Proof. split; reflexivity. Qed.

(** C4 as stated fails: an extraction that fails does not make
    [extractZip] reject. *)
Lemma extractZip_failure_not_rejected :
  let run := {| entries := [js "pkg/a.txt"]; failure := Some (js "end of central directory record signature not found") |} in
  failure run ≠ None ∧ ¬ ∃ e, extractZip run = Rejected e.
Proof. split; [done|]. intros [e He]. discriminate He. Qed.

(** C4, amended. [extractZip] never rejects: it always resolves, and
    when the extraction fails it resolves with the error that it caught,
    as an ordinary result, whatever entries were seen before. *)
Theorem extractZip_returns_error (run : extraction) :
  (∃ v, extractZip run = Resolved v)
  ∧ ∀ err, failure run = Some err → extractZip run = Resolved (VError err).
Proof.
  unfold extractZip. destruct (failure run) as [e|].
  - split; [by eexists|]. by intros err [= ->].
  - split; [by eexists|done].
Qed.

Lemma extractZip_returns_error_witness :
  extractZip {| entries := [js "pkg/a.txt"]; failure := Some (js "EACCES") |}
  = Resolved (VError (js "EACCES")).
Proof.
  apply (extractZip_returns_error
           {| entries := [js "pkg/a.txt"]; failure := Some (js "EACCES") |}).
  reflexivity.
Defined.

End ExtractZip.

(** ** The asset fetcher *)

Section DownloadFile.
Import Fs Samples.
Implicit Types (env : environment) (w : world) (url targetFile : jsstring).

Lemma afterRedirect_world (inner : option (outcome * world)) o w' :
  afterRedirect inner = Some (o, w') → ∃ o', inner = Some (o', w').
Proof.
  destruct inner as [[[] ?]|]; simpl; intros [= <- <-]; eauto.
Qed.

(** A download never forgets a request. *)
Lemma downloadFile_requests_grow fuel env w url targetFile o w' :
  downloadFile fuel env w url targetFile = Some (o, w') →
  (length (requests w) ≤ length (requests w'))%nat.
Proof.
  revert w url o w'. induction fuel as [|fuel IH]; intros w url o w'; [done|].
  cbn [downloadFile].
  destruct (existsSync (disk w) targetFile); [by intros [= <- <-]|].
  assert (length (requests w) ≤ length (requests (request url w)))%nat as Hreq.
  { unfold request. cbn. rewrite length_app. lia. }
  destruct (get env url) as [r|e]; [|by intros [= <- <-]].
  destruct (_ >=? _)%Z; [by intros [= <- <-]|].
  destruct (_ && _ && _).
  - intros [o' H]%afterRedirect_world. apply IH in H. lia.
  - destruct (writable env targetFile); by intros [= <- <-].
Qed.

(** A download that goes past the already-exists check issues a
    request. *)
Lemma downloadFile_not_skipped fuel env w url targetFile o w' :
  existsSync (disk w) targetFile = false →
  downloadFile fuel env w url targetFile = Some (o, w') →
  (length (requests w) < length (requests w'))%nat.
Proof.
  intros Hnew. destruct fuel as [|fuel]; [done|].
  cbn [downloadFile]. rewrite Hnew.
  assert (length (requests (request url w)) = S (length (requests w))) as Hreq.
  { unfold request. cbn. rewrite length_app. cbn. lia. }
  destruct (get env url) as [r|e]; [|intros [= <- <-]; lia].
  destruct (_ >=? _)%Z; [intros [= <- <-]; lia|].
  destruct (_ && _ && _).
  - intros [o' H]%afterRedirect_world.
    apply downloadFile_requests_grow in H. lia.
  - destruct (writable env targetFile); intros [= <- <-]; cbn in *; lia.
Qed.

(** C10. With no file at the target and a response of status 400 or
    more, the download rejects with the status text, whatever fuel
    there is; the disk is as it was, so the target still does not
    exist there, and a later download to the same target is not
    answered from the already-exists check: it issues a request (and,
    for the same URL, rejects again). *)
Theorem downloadFile_error_status fuel env w url targetFile r :
  existsSync (disk w) targetFile = false →
  get env url = Responds r →
  (default 0 (statusCode r) >= 400)%Z →
  ∃ w',
    downloadFile (S fuel) env w url targetFile
      = Some (Rejected (rethrown (statusMessage r)), w')
    ∧ disk w' = disk w
    ∧ existsSync (disk w') targetFile = false
    ∧ downloadFile (S fuel) env w' url targetFile
      = Some (Rejected (rethrown (statusMessage r)), request url w')
    ∧ ∀ fuel' url' o w'',
        downloadFile fuel' env w' url' targetFile = Some (o, w'') →
        (length (requests w') < length (requests w''))%nat.
Proof.
  intros Hnew Hget Hcode. exists (request url w).
  assert (∀ w0, existsSync (disk w0) targetFile = false →
                downloadFile (S fuel) env w0 url targetFile
                = Some (Rejected (rethrown (statusMessage r)), request url w0))
    as Hreject.
  { intros w0 Hw0. cbn [downloadFile]. rewrite Hw0, Hget.
    by rewrite (proj2 (Z.geb_le _ _)) by lia. }
  split; [by apply Hreject|]. split; [done|]. split; [done|].
  split; [by apply Hreject|].
  intros fuel' url' o w''. by apply downloadFile_not_skipped.
Qed.

Lemma downloadFile_error_status_witness :
  ∃ w',
    downloadFile 1 notFound {| disk := ∅; requests := [] |}
      (js "https://wordpress.org/latest.zip") (js "temp/wordpress.zip")
      = Some (Rejected (rethrown (js "Not Found")), w')
    ∧ disk w' = ∅
    ∧ existsSync (disk w') (js "temp/wordpress.zip") = false
    ∧ downloadFile 1 notFound w'
        (js "https://wordpress.org/latest.zip") (js "temp/wordpress.zip")
      = Some (Rejected (rethrown (js "Not Found")),
              request (js "https://wordpress.org/latest.zip") w')
    ∧ ∀ fuel' url' o w'',
        downloadFile fuel' notFound w' url' (js "temp/wordpress.zip")
          = Some (o, w'') →
        (length (requests w') < length (requests w''))%nat.
Proof.
  apply (downloadFile_error_status 0 notFound {| disk := ∅; requests := [] |}
           (js "https://wordpress.org/latest.zip") (js "temp/wordpress.zip")
           {| statusCode := Some 404%Z; statusMessage := js "Not Found";
              location := None; payload := js "<html>gone</html>" |}).
  - reflexivity.
  - reflexivity.
  - simpl. lia.
Defined.




End DownloadFile.

(** ** The path resolver *)

Section GetWordPressPaths.
Import Fs WordPress Samples.

(** C8. The base folder is the root folder itself when [wp-config.php]
    or the package file is found directly under it, and otherwise the
    root folder joined with [config.name], or with the default install
    folder when the configuration has no name. *)
Theorem getWordPressPaths_baseFolder
  (path_join : list jsstring → jsstring)
  (pkgFileName defaultWpInstallFolder : jsstring)
  (disk : gmap jsstring node) (config : WordPress.config)
  (rootFolder : jsstring) :
  let paths :=
    getWordPressPaths path_join pkgFileName defaultWpInstallFolder
      disk config rootFolder in
  let hasConfig := existsSync disk (path_join [rootFolder; js "wp-config.php"]) in
  let hasMarker := existsSync disk (path_join [rootFolder; pkgFileName]) in
  (hasMarker = true ∨ hasConfig = true → baseFolder paths = rootFolder)
  ∧ (hasMarker = false ∧ hasConfig = false →
     baseFolder paths
     = path_join [rootFolder;
                  match name config with
                  | Some installName => installName
                  | None => defaultWpInstallFolder
                  end]).
Proof.
  cbn zeta. unfold getWordPressPaths. cbn [baseFolder].
  split.
  - intros [-> | ->]; [by rewrite andb_false_r|done].
  - intros [-> ->]. by destruct (name config).
Qed.

Lemma getWordPressPaths_baseFolder_witness :
  baseFolder (getWordPressPaths joinSegments (js "wp-package.json")
                (js "wordpress") siteDisk
                {| name := Some (js "myfolder") |} (js "/srv/site"))
  = js "/srv/site"
  ∧ baseFolder (getWordPressPaths joinSegments (js "wp-package.json")
                  (js "wordpress") siteDisk
                  {| name := Some (js "myfolder") |} (js "/srv/new"))
    = js "/srv/new/myfolder"
  ∧ baseFolder (getWordPressPaths joinSegments (js "wp-package.json")
                  (js "wordpress") siteDisk
                  {| name := None |} (js "/srv/new"))
    = js "/srv/new/wordpress".
Proof.
  split; [|split].
  - apply (getWordPressPaths_baseFolder joinSegments (js "wp-package.json")
             (js "wordpress") siteDisk {| name := Some (js "myfolder") |}
             (js "/srv/site")).
    left. reflexivity.
  - apply (getWordPressPaths_baseFolder joinSegments (js "wp-package.json")
             (js "wordpress") siteDisk {| name := Some (js "myfolder") |}
             (js "/srv/new")).
    split; reflexivity.
  - apply (getWordPressPaths_baseFolder joinSegments (js "wp-package.json")
             (js "wordpress") siteDisk {| name := None |} (js "/srv/new")).
    split; reflexivity.
Defined.

End GetWordPressPaths.

(** ** The installation scanner *)

Section ScanDirectory.
Import Regex Fs Dump Inventory Samples.
Implicit Types (result added : list item) (child directory : jsstring).

Lemma pushVersion_adds result child version :
  ∃ added, pushVersion result child version = result ++ added
           ∧ addsAtMost 1 child added.
Proof.
  unfold pushVersion. destruct (truthy version).
  - eexists [_]. split; [done|]. split; [done|]. by constructor.
  - exists []. rewrite app_nil_r. split; [done|]. split; [cbn; lia|constructor].
Qed.

Lemma addsAtMost_app n m child added added' :
  addsAtMost n child added → addsAtMost m child added' →
  addsAtMost (n + m) child (added ++ added').
Proof.
  intros [Hn Hall] [Hm Hall']. split.
  - rewrite length_app. lia.
  - by apply Forall_app.
Qed.

Lemma addsAtMost_nil n child : addsAtMost n child [].
Proof. split; [cbn; lia|constructor]. Qed.

Lemma scanItem_adds path_join disk directory result child result' :
  scanItem path_join disk directory result child = Some result' →
  ∃ added, result' = result ++ added ∧ addsAtMost 2 child added.
Proof.
  unfold scanItem.
  destruct (isDirectory disk _) as [[]|]; simpl; [| |done].
  - destruct (existsSync disk (path_join [_; js "style.css"])); simpl.
    + destruct (extractVersionFromStyleFile disk _) as [v1|]; simpl; [|done].
      destruct (pushVersion_adds result child v1) as (a1 & -> & H1).
      destruct (_ || _).
      * destruct (extractVersionFromPHPFile disk (path_join _)) as [first|];
          simpl; [|done].
        destruct (if truthy first then _ else _) as [v2|]; simpl; [|done].
        intros [= <-].
        destruct (pushVersion_adds (result ++ a1) child v2) as (a2 & -> & H2).
        exists (a1 ++ a2). rewrite app_assoc. split; [done|].
        by apply (addsAtMost_app 1 1).
      * intros [= <-]. exists a1. split; [done|].
        destruct H1. split; [lia|done].
    + destruct (_ || _).
      * destruct (extractVersionFromPHPFile disk (path_join _)) as [first|];
          simpl; [|done].
        destruct (if truthy first then _ else _) as [v2|]; simpl; [|done].
        intros [= <-].
        destruct (pushVersion_adds result child v2) as (a2 & -> & H2).
        exists a2. split; [done|]. destruct H2. split; [lia|done].
      * intros [= <-]. exists []. rewrite app_nil_r.
        auto using addsAtMost_nil.
  - intros [= <-]. exists []. rewrite app_nil_r. auto using addsAtMost_nil.
Qed.

Lemma scanLoop_adds path_join disk directory children result result' :
  scanLoop path_join disk directory children result = Some result' →
  ∃ contributions,
    result' = result ++ concat contributions
    ∧ Forall2 (addsAtMost 2) children contributions.
Proof.
  revert result. induction children as [|child children IH]; intros result.
  - intros [= <-]. exists []. rewrite app_nil_r. split; [done|constructor].
  - cbn [scanLoop].
    destruct (scanItem _ _ _ _ _) as [result1|] eqn:E;
      simpl; [|done].
    intros (cs & -> & Hcs)%IH.
    apply scanItem_adds in E as (added & -> & Hadded).
    exists (added :: cs). cbn [concat]. rewrite app_assoc.
    split; [done|]. by constructor.
Qed.

(** C7 as stated fails: the two version checks are not alternatives.
    A theme whose style sheet and whose main PHP file both carry a
    version is listed twice. *)
Lemma scanDirectory_lists_a_child_twice :
  scanDirectory joinSegments themesDisk (js "themes")
  = Some [ {| name := js "foo"; version := js "2.3.1" |};
           {| name := js "foo"; version := js "1.0" |} ].
Proof. reflexivity. Qed.

(** A file that is not there yields no version. *)
Lemma yields_missing disk p : existsSync disk p = false → yields disk p = None.
Proof.
  unfold existsSync, yields, readFileSync. intros H%bool_decide_eq_false.
  destruct (disk !! p) as [n|] eqn:E; [|done]. destruct H. by eexists.
Qed.

(** What an extractor returns is pushed just when the file yields it. *)
Lemma pushVersion_yields disk p version result child :
  extractVersionFromPHPFile disk p = Some version →
  yields disk p = (if truthy version then version else None)
  ∧ pushVersion result child version
    = result ++ match yields disk p with
                | Some v => [ {| name := child; version := v |} ]
                | None => []
                end.
Proof.
  unfold extractVersionFromPHPFile, yields, pushVersion.
  destruct (readFileSync disk p) as [content|]; simpl; [|done].
  intros [= <-].
  destruct (exec versionRegex content ≫= _) as [[|c v]|]; simpl;
    by rewrite ?app_nil_r.
Qed.

(** A child that is scanned adds its contribution to the list. *)
Lemma scanItem_contribution path_join disk directory result child result' :
  scanItem path_join disk directory result child = Some result' →
  result' = result ++ contribution path_join disk directory child.
Proof.
  unfold scanItem, contribution, styleItems, phpItems.
  destruct (isDirectory disk _) as [[]|]; simpl; [| |done];
    [|intros [= <-]; by rewrite app_nil_r].
  set (stylePath := path_join [path_join [directory; child]; js "style.css"]).
  set (themeFile := path_join [path_join [directory; child];
                               child ++ js ".php"]).
  set (pluginFile := child ++ js ".php").
  assert (∀ result1,
            (if existsSync disk themeFile || existsSync disk pluginFile
             then
               extractVersionFromPHPFile disk themeFile
               ≫= (fun first =>
                     (if truthy first then Some first
                      else extractVersionFromPHPFile disk pluginFile)
                     ≫= fun version => Some (pushVersion result1 child version))
             else Some result1) = Some result' →
            result' = result1
              ++ match yields disk themeFile with
                 | Some v => [ {| name := child; version := v |} ]
                 | None =>
                     match yields disk pluginFile with
                     | Some v => [ {| name := child; version := v |} ]
                     | None => []
                     end
                 end) as Hphp.
  { intros result1.
    destruct (existsSync disk themeFile) eqn:Etheme;
      [|destruct (existsSync disk pluginFile) eqn:Eplugin]; cbn [orb].
    3:{ intros [= <-]. rewrite !yields_missing by done. by rewrite app_nil_r. }
    all: destruct (extractVersionFromPHPFile disk themeFile) as [first|] eqn:E1;
      simpl; [|done].
    all: destruct (pushVersion_yields disk themeFile first result1 child E1)
      as [Hy1 Hp1].
    all: destruct (truthy first) eqn:Et; simpl.
    1,3: intros [= <-]; rewrite Hp1, Hy1;
      by destruct first as [[|c v]|].
    all: destruct (extractVersionFromPHPFile disk pluginFile) as [second|] eqn:E2;
      simpl; [|done].
    all: destruct (pushVersion_yields disk pluginFile second result1 child E2)
      as [Hy2 Hp2].
    all: intros [= <-]; by rewrite Hy1, Hp2. }
  destruct (existsSync disk stylePath) eqn:Estyle; simpl.
  - destruct (extractVersionFromStyleFile disk stylePath) as [v1|] eqn:E1;
      simpl; [|done].
    intros ->%Hphp.
    destruct (pushVersion_yields disk stylePath v1 result child E1) as [_ ->].
    by rewrite <- app_assoc.
  - intros ->%Hphp. rewrite (yields_missing disk stylePath) by done.
    done.
Qed.

Lemma scanLoop_contributions path_join disk directory children result result' :
  scanLoop path_join disk directory children result = Some result' →
  result' = result
    ++ concat (map (contribution path_join disk directory) children).
Proof.
  revert result. induction children as [|child children IH]; intros result.
  - intros [= <-]. by rewrite app_nil_r.
  - cbn [scanLoop].
    destruct (scanItem _ _ _ _ _) as [result1|] eqn:E; simpl; [|done].
    intros ->%IH. apply scanItem_contribution in E as ->.
    cbn [map concat]. by rewrite app_assoc.
Qed.

(** C7, amended. When the scan does not throw, the list that
    [scanDirectory] returns is made of what each child contributes, in
    the order of the children; a child contributes at most two items,
    all under its own name.  A child that is a folder contributes one
    item when its style sheet yields a version, and after it one item
    when the PHP file named after it yields a version: the file in its
    own folder or, when that one yields none, the file of that name in
    the working directory.  Any other child contributes nothing. *)
Theorem scanDirectory_at_most_two path_join disk directory result :
  scanDirectory path_join disk directory = Some result →
  ∃ children contributions,
    readdirSync disk directory = Some children
    ∧ result = concat contributions
    ∧ Forall2 (addsAtMost 2) children contributions
    ∧ contributions = map (contribution path_join disk directory) children.
Proof.
  unfold scanDirectory.
  destruct (readdirSync disk directory) as [children|];
    simpl; [|done].
  intros H. pose proof (scanLoop_contributions _ _ _ _ _ _ H) as Hresult.
  apply scanLoop_adds in H as (cs & Hcs & Hall). cbn [app] in *.
  exists children, (map (contribution path_join disk directory) children).
  split; [done|]. split; [done|]. split; [|done].
  apply Forall2_fmap_r, Forall_Forall2_diag, Forall_forall.
  intros child _. unfold compose, contribution, styleItems, phpItems.
  destruct (isDirectory disk _) as [[]|]; try apply addsAtMost_nil.
  apply (addsAtMost_app 1 1).
  - destruct (yields disk (path_join _)); [|apply addsAtMost_nil].
    split; [done|]. by constructor.
  - destruct (yields disk (path_join _));
      [|destruct (yields disk (child ++ _)); [|apply addsAtMost_nil]];
      (split; [done|]; by constructor).
Qed.

Lemma scanDirectory_at_most_two_witness :
  ∃ children contributions,
    readdirSync themesDisk (js "themes") = Some children
    ∧ [ {| name := js "foo"; version := js "2.3.1" |};
        {| name := js "foo"; version := js "1.0" |} ]
      = concat contributions
    ∧ Forall2 (addsAtMost 2) children contributions
    ∧ contributions
      = map (contribution joinSegments themesDisk (js "themes")) children.
Proof.
  apply (scanDirectory_at_most_two joinSegments themesDisk (js "themes")).
  reflexivity.
Defined.

End ScanDirectory.

(** ** The salt generator *)

Section GenerateSalt.
Import WordPress Samples.

Lemma charset_length : length charset = 89%nat.
Proof. reflexivity. Qed.

Lemma charset_NoDup : NoDup charset.
Proof. apply (bool_decide_unpack (NoDup charset)). vm_compute. exact I. Qed.

(** A double below 1 is zero, or has a negative exponent [e] and a
    mantissa below [2^(-e)]. *)
Lemma below_one (r : double) :
  (0 ≤ mantissa r)%Z → (toQ r < 1)%Q →
  mantissa r = 0%Z ∨ (exponent r < 0 ∧ mantissa r < 2 ^ (- exponent r))%Z.
Proof.
  intros Hm. unfold toQ. destruct (Z.leb_spec 0 (exponent r)) as [He|He].
  - unfold Qlt, inject_Z. cbn [Qnum Qden]. intros H. left.
    assert (1 ≤ 2 ^ exponent r)%Z
      by (apply Z.pow_le_mono_r with (b := 0%Z); lia).
    nia.
  - unfold Qlt. cbn [Qnum Qden]. intros H. right. split; [done|].
    rewrite Z2Pos.id in H by (apply Z.pow_pos_nonneg; lia). lia.
Qed.

(** Rounding adds at most half a unit of the last place. *)
Lemma roundShift_bound (m s : Z) :
  (0 ≤ m)%Z → (0 < s)%Z →
  (0 ≤ roundShift m s ∧ roundShift m s * 2 ^ s ≤ m + 2 ^ (s - 1))%Z.
Proof.
  intros Hm Hs. unfold roundShift.
  rewrite Z.shiftr_div_pow2, !Z.shiftl_mul_pow2 by lia.
  assert (0 < 2 ^ (s - 1))%Z as Hhalf by (apply Z.pow_pos_nonneg; lia).
  assert (2 ^ s = 2 * 2 ^ (s - 1))%Z as Hpow.
  { rewrite <- Z.pow_succ_r by lia. f_equal. lia. }
  rewrite Hpow, Z.mul_1_l. set (h := (2 ^ (s - 1))%Z) in *.
  pose proof (Z.div_mod m (2 * h) ltac:(lia)) as Hdiv.
  pose proof (Z.mod_pos_bound m (2 * h) ltac:(lia)) as Hmod.
  assert (0 ≤ m / (2 * h))%Z as Hq by (apply Z.div_pos; lia).
  set (q := (m / (2 * h))%Z) in *.
  repeat case_match; nia.
Qed.

(** The index of a draw lies in the string, also where the product is
    rounded up: the largest double below 1 times 89 is more than half
    a unit of the last place below 89. *)
Lemma draw_index (r : double) :
  isDouble r → (toQ r < 1)%Q →
  (0 ≤ floor (times r (Z.of_nat (length charset))) < 89)%Z.
Proof.
  intros [[Hm0 Hm53] _] Hone. rewrite charset_length.
  change (Z.of_nat 89) with 89%Z.
  destruct (below_one r Hm0 Hone) as [Hzero|[He Hm]].
  { unfold times, floor. rewrite Hzero. cbn. rewrite Z.shiftl_0_l. lia. }
  set (k := (- exponent r)%Z) in *.
  assert (0 < 2 ^ k)%Z as Hk by (apply Z.pow_pos_nonneg; lia).
  unfold times, floor.
  set (M := (mantissa r * 89)%Z).
  destruct (Z.leb_spec (Z.log2 M + 1 - 53) 0) as [Hs|Hs];
    cbn [mantissa exponent].
  - replace (exponent r) with (- k)%Z by lia.
    rewrite Z.shiftl_opp_r, Z.shiftr_div_pow2 by lia. split.
    + apply Z.div_pos; lia.
    + apply Z.div_lt_upper_bound; lia.
  - set (s := (Z.log2 M + 1 - 53)%Z) in *.
    assert (0 < M)%Z as HM.
    { destruct (Z.eq_dec M 0%Z) as [E|]; [|lia].
      exfalso. unfold s in Hs. rewrite E in Hs. cbn in Hs. lia. }
    destruct (Z.log2_spec M HM) as [Hlo Hhi].
    assert (2 ^ 53 ≤ M)%Z as H53.
    { etrans; [|exact Hlo]. apply Z.pow_le_mono_r; lia. }
    assert (s ≤ 7)%Z as Hs7.
    { assert (Z.log2 M < 60)%Z; [|lia].
      apply Z.log2_lt_pow2; [done|]. lia. }
    assert (46 < k)%Z as Hk46.
    { destruct (Z.le_gt_cases k 46%Z) as [Hle|]; [|done]. exfalso.
      assert (2 ^ k ≤ 2 ^ 46)%Z by (apply Z.pow_le_mono_r; lia). lia. }
    destruct (roundShift_bound M s ltac:(lia) Hs) as [Hq0 Hq].
    set (q := roundShift M s) in *.
    replace (exponent r + s)%Z with (- (k - s))%Z by lia.
    rewrite Z.shiftl_opp_r, Z.shiftr_div_pow2 by lia.
    assert (0 < 2 ^ (k - s))%Z as HR by (apply Z.pow_pos_nonneg; lia).
    assert (0 < 2 ^ s)%Z as HP by (apply Z.pow_pos_nonneg; lia).
    assert (2 ^ k = 2 ^ (k - s) * 2 ^ s)%Z as Hsplit.
    { rewrite <- Z.pow_add_r by lia. f_equal. lia. }
    assert (2 ^ (s - 1) ≤ 2 ^ 6)%Z as Hhalf by (apply Z.pow_le_mono_r; lia).
    split; [apply Z.div_pos; lia|].
    apply Z.div_lt_upper_bound; [done|].
    apply (Z.mul_lt_mono_pos_r (2 ^ s)); [done|].
    rewrite <- Z.mul_assoc, (Z.mul_comm 89), Z.mul_assoc, <- Hsplit. lia.
Qed.

Lemma draw_in_charset (r : double) :
  isDouble r → (toQ r < 1)%Q → ∃ c, draw r = Some c ∧ c ∈ charset.
Proof.
  intros Hd Hone. unfold draw.
  pose proof (draw_index r Hd Hone) as [H0 H89].
  rewrite (proj2 (Z.ltb_ge _ _)) by done.
  set (i := floor _) in *.
  destruct (lookup_lt_is_Some_2 charset (Z.to_nat i)) as [c Hc].
  { rewrite charset_length. lia. }
  exists c. split; [done|]. by eapply list_elem_of_lookup_2.
Qed.

(** The double [towards i] has 53 bits, and its draw is the character
    at [i], for each of the 89 indices. *)
Lemma towards_draws :
  forallb (fun i => bool_decide (draw (towards i) = charset !! i)
                    && (mantissa (towards i) <? 2 ^ 53)%Z)
          (seq 0 89) = true.
Proof. vm_compute. reflexivity. Qed.

(** Every character of [charset] is the result of the draw of some
    double of the unit interval. *)
Lemma draw_reaches (c : char) :
  c ∈ charset →
  ∃ r, isDouble r ∧ (0 <= toQ r)%Q ∧ (toQ r < 1)%Q ∧ draw r = Some c.
Proof.
  intros [i Hi]%list_elem_of_lookup_1.
  pose proof (lookup_lt_Some _ _ _ Hi) as Hlt. rewrite charset_length in Hlt.
  pose proof towards_draws as H. rewrite forallb_forall in H.
  specialize (H i). rewrite andb_true_iff, bool_decide_eq_true, Z.ltb_lt in H.
  destruct H as [Hdraw Hm]; [apply in_seq; lia|].
  assert (0 ≤ mantissa (towards i))%Z as Hm0.
  { unfold towards. cbn [mantissa].
    assert (0 ≤ (2 * Z.of_nat i + 1) * 2 ^ 52 / 89)%Z; [|lia].
    apply Z.div_pos; lia. }
  exists (towards i). split; [|split; [|split]].
  - split; [done|]. cbn. lia.
  - unfold toQ, Qle. cbn [exponent towards Z.leb Z.compare Qnum Qden]. lia.
  - unfold toQ, Qlt. cbn [exponent towards Z.leb Z.compare Qnum Qden].
    change (Z.pos (Z.to_pos (2 ^ (- -53)))) with (2 ^ 53)%Z. lia.
  - by rewrite Hdraw.
Qed.

Lemma concat_singletons {A} (f : nat → list A) (P : A → Prop) (l : list nat) :
  (∀ k, ∃ c, f k = [c] ∧ P c) →
  length (concat (map f l)) = length l ∧ Forall P (concat (map f l)).
Proof.
  intros Hf. induction l as [|k l [IHlen IHall]]; [by split|].
  destruct (Hf k) as (c & Hc & HP). cbn. rewrite Hc. cbn.
  split; [by rewrite IHlen|by constructor].
Qed.

(** C2 as stated fails on the size of the alphabet: [charset] holds 89
    characters, all different, not 94. *)
Lemma charset_has_89_characters :
  NoDup charset ∧ length charset = 89%nat ∧ length charset ≠ 94%nat.
Proof. split; [apply charset_NoDup|]. split; [reflexivity|discriminate]. Qed.

(** C2, amended. Whatever doubles of the interval from 0 (included) to
    1 (excluded) [Math.random] returns, and with the product
    [Math.random() * charset.length] rounded as the double arithmetic
    rounds it, the salt has exactly 64 characters and each of them is
    one of [charset], an alphabet of 89 different characters, each of
    which the draw of some double of the interval produces. *)
Theorem generateSalt_length_and_alphabet (random : nat → double) :
  (∀ k, isDouble (random k)
        ∧ (0 <= toQ (random k))%Q ∧ (toQ (random k) < 1)%Q) →
  length (generateSalt random) = 64%nat
  ∧ Forall (fun c => c ∈ charset) (generateSalt random)
  ∧ length charset = 89%nat ∧ NoDup charset
  ∧ ∀ c, c ∈ charset →
      ∃ r, isDouble r ∧ (0 <= toQ r)%Q ∧ (toQ r < 1)%Q ∧ draw r = Some c.
Proof.
  intros Hrandom.
  destruct (concat_singletons
              (fun k => match draw (random k) with
                        | Some c => [c]
                        | None => []
                        end)
              (fun c => c ∈ charset) (seq 0 saltLength)) as [Hlen Hall].
  { intros k. destruct (Hrandom k) as (Hd & _ & Hhi).
    destruct (draw_in_charset _ Hd Hhi) as (c & -> & Hc). eauto. }
  split; [|split; [exact Hall|]].
  - unfold generateSalt. by rewrite Hlen, length_seq.
  - split; [reflexivity|]. split; [apply charset_NoDup|apply draw_reaches].
Qed.

Lemma generateSalt_length_and_alphabet_witness :
  length (generateSalt inTurn) = 64%nat
  ∧ Forall (fun c => c ∈ charset) (generateSalt inTurn)
  ∧ length charset = 89%nat ∧ NoDup charset
  ∧ ∀ c, c ∈ charset →
      ∃ r, isDouble r ∧ (0 <= toQ r)%Q ∧ (toQ r < 1)%Q ∧ draw r = Some c.
Proof.
  apply (generateSalt_length_and_alphabet inTurn).
  intros k. pose proof (Nat.mod_upper_bound k 89 ltac:(lia)) as Hk.
  unfold inTurn, isDouble, toQ, Qle, Qlt.
  cbn [mantissa exponent Z.leb Z.compare Qnum Qden].
  change (Z.pos (Z.to_pos (2 ^ (- -53)))) with (2 ^ 53)%Z. lia.
Defined.

End GenerateSalt.

(** ** The comment stripper *)

Section UncommentedLines.
Import WordPress.
Implicit Types (s t line needle : jsstring) (lines : list jsstring).

Lemma startsWith_app needle s t :
  startsWith needle s = true → startsWith needle (s ++ t) = true.
Proof.
  revert s. induction needle as [|a needle IH]; intros [|b s]; simpl; try done.
  intros [-> H]%andb_prop. by rewrite IH.
Qed.

Lemma indexOf_cons_None needle c s :
  indexOf needle (c :: s) = None →
  startsWith needle (c :: s) = false ∧ indexOf needle s = None.
Proof.
  cbn [indexOf]. destruct (startsWith needle (c :: s)); [done|].
  destruct (indexOf needle s); [done|]. by split.
Qed.

(** The first part of a split is a prefix of the string. *)
Lemma split_head sep s p ps : split sep s = p :: ps → ∃ t, s = p ++ t.
Proof.
  intros E. pose proof (join_split sep s) as H. rewrite E in H.
  destruct ps; simpl in H; [exists []; by rewrite app_nil_r|eauto].
Qed.

(** A marker that is not in the text is in none of its lines. *)
Lemma lines_without needle t :
  needle ≠ [] → indexOf needle t = None →
  Forall (fun line => indexOf needle line = None) (split newline t).
Proof.
  intros Hne. induction t as [|c t IH]; intros Hnone.
  - by constructor.
  - apply indexOf_cons_None in Hnone as [Hhere Hlater].
    specialize (IH Hlater). cbn [split].
    destruct (N.eqb c newline).
    + constructor; [|done]. by destruct needle.
    + destruct (split newline t) as [|p ps] eqn:E;
        [by destruct (split_nonempty newline t)|].
      apply Forall_cons in IH as [Hp Hps]. constructor; [|done].
      cbn [indexOf]. rewrite Hp.
      destruct (startsWith needle (c :: p)) eqn:Hsw; [|done].
      destruct (split_head _ _ _ _ E) as [t' ->].
      pose proof (startsWith_app needle (c :: p) t' Hsw) as Happ.
      simpl in Happ, Hhere. congruence.
Qed.

(** Outside a block comment, a line without an opening marker and
    without a line-comment marker is kept whole. *)
Lemma uncommentLine_plain line :
  indexOf blockOpen line = None → indexOf lineComment line = None →
  uncommentLine false line = (line, false).
Proof. unfold uncommentLine. by intros -> ->. Qed.

Lemma uncommentLoop_plain lines acc :
  Forall (fun line => indexOf blockOpen line = None) lines →
  Forall (fun line => indexOf lineComment line = None) lines →
  uncommentLoop lines false acc
  = acc ++ concat (map (fun line => line ++ [newline]) lines).
Proof.
  revert acc. induction lines as [|line lines IH]; intros acc Hb Hl.
  - by rewrite app_nil_r.
  - apply Forall_cons in Hb as [Hb Hbs]. apply Forall_cons in Hl as [Hl Hls].
    cbn [uncommentLoop]. rewrite uncommentLine_plain by done.
    rewrite IH by done. cbn [map concat]. by rewrite <- !app_assoc.
Qed.

Lemma terminated_lines t :
  concat (map (fun line => line ++ [newline]) (split newline t))
  = t ++ [newline].
Proof.
  induction t as [|c t IH]; [done|]. cbn [split].
  destruct (N.eqb_spec c newline) as [->|_].
  - cbn. by rewrite IH.
  - destruct (split newline t) as [|p ps] eqn:E;
      [by destruct (split_nonempty newline t)|].
    cbn in *. by rewrite IH.
Qed.

Lemma includes_false needle s : includes needle s = false → indexOf needle s = None.
Proof. unfold includes. by destruct (indexOf needle s). Qed.

(** On a text without [/*] and without [//], the stripper only ends the
    last line. *)
Lemma uncommentedLines_plain t :
  includes blockOpen t = false → includes lineComment t = false →
  uncommentedLines t = t ++ [newline].
Proof.
  intros Hb%includes_false Hl%includes_false. unfold uncommentedLines.
  rewrite uncommentLoop_plain by (by apply lines_without).
  apply terminated_lines.
Qed.

(** *** Every pass adds a line *)

(** What is kept of a line is made of characters of the line. *)
Lemma uncommentLine_subseteq inBlockComment line :
  (uncommentLine inBlockComment line).1 ⊆ line.
Proof.
  assert (∀ l : jsstring,
            match indexOf lineComment l with
            | Some i => slice 0 i l
            | None => l
            end ⊆ l) as Hline.
  { intros l. destruct (indexOf lineComment l); [apply subseteq_take|done]. }
  assert (∀ l : jsstring,
            (let '(newLine, inBlockComment) :=
               match indexOf blockOpen l, indexOf blockClose l with
               | Some i, Some j => (slice 0 i l ++ sliceFrom (j + 2) l, false)
               | Some i, None => (slice 0 i l, true)
               | None, _ => (l, false)
               end in
             (match indexOf lineComment newLine with
              | Some i => slice 0 i newLine
              | None => newLine
              end, inBlockComment)).1 ⊆ l) as Hblock.
  { intros l.
    destruct (indexOf blockOpen l) as [i|];
      [destruct (indexOf blockClose l) as [j|]|];
      cbn [fst]; (etrans; [apply Hline|]); try done.
    - apply list_subseteq_app_iff_l.
      split; [apply subseteq_take|apply subseteq_drop].
    - apply subseteq_take. }
  unfold uncommentLine. destruct inBlockComment.
  - destruct (indexOf blockClose line) as [j|]; [|apply list_subseteq_nil].
    etrans; [apply Hblock|]. apply subseteq_drop.
  - apply Hblock.
Qed.

Lemma split_terminated sep p s :
  sep ∉ p → split sep (p ++ sep :: s) = p :: split sep s.
Proof.
  induction p as [|c p IH]; intros Hp.
  - cbn. by rewrite N.eqb_refl.
  - apply not_elem_of_cons in Hp as [Hc Hp]. cbn [app split].
    rewrite (proj2 (N.eqb_neq c sep)) by done. by rewrite IH.
Qed.

Lemma split_terminated_lines (out : list jsstring) :
  Forall (fun line => newline ∉ line) out →
  split newline (concat (map (fun line => line ++ [newline]) out))
  = out ++ [[]].
Proof.
  induction 1 as [|line out Hline _ IH]; [done|].
  cbn [map concat]. rewrite <- app_assoc. cbn [app].
  by rewrite split_terminated, IH.
Qed.

(** The loop writes one terminated line for each line that it reads. *)
Lemma uncommentLoop_lines lines inBlockComment acc :
  Forall (fun line => newline ∉ line) lines →
  ∃ out,
    uncommentLoop lines inBlockComment acc
    = acc ++ concat (map (fun line => line ++ [newline]) out)
    ∧ length out = length lines
    ∧ Forall (fun line => newline ∉ line) out.
Proof.
  intros Hlines. revert inBlockComment acc.
  induction Hlines as [|line lines Hline _ IH]; intros b acc.
  - exists []. by rewrite app_nil_r.
  - cbn [uncommentLoop].
    pose proof (uncommentLine_subseteq b line) as Hsub.
    destruct (uncommentLine b line) as [newLine b'].
    destruct (IH b' (acc ++ newLine ++ [newline])) as (out & -> & Hlen & Hout).
    exists (newLine :: out). cbn [map concat length].
    split; [by rewrite <- !app_assoc|]. split; [by rewrite Hlen|].
    constructor; [|done]. intros Hin. by apply Hline, Hsub.
Qed.

(** The result has one line more than the text. *)
Lemma uncommentedLines_adds_a_line t :
  length (split newline (uncommentedLines t))
  = S (length (split newline t)).
Proof.
  unfold uncommentedLines.
  destruct (uncommentLoop_lines (split newline t) false [])
    as (out & -> & Hlen & Hout).
  { apply Forall_forall. intros line. apply split_parts_free. }
  cbn [app]. rewrite split_terminated_lines by done.
  rewrite length_app. cbn. lia.
Qed.

(** So no text at all is left unchanged by a second pass. *)
Lemma uncommentedLines_never_idempotent t :
  uncommentedLines (uncommentedLines t) ≠ uncommentedLines t.
Proof.
  intros H. apply (f_equal (fun s => length (split newline s))) in H.
  rewrite (uncommentedLines_adds_a_line (uncommentedLines t)) in H. lia.
Qed.

(** C3 as stated fails: each pass ends every line with a line feed, the
    last one too, so the second pass of a one-line text adds a second
    line feed. *)
Lemma uncommentedLines_not_idempotent :
  uncommentedLines (js "<?php") = js "<?php" ++ [newline]
  ∧ uncommentedLines (uncommentedLines (js "<?php"))
    = js "<?php" ++ [newline; newline]
  ∧ uncommentedLines (uncommentedLines (js "<?php"))
    ≠ uncommentedLines (js "<?php").
Proof. split; [reflexivity|]. split; [reflexivity|discriminate]. Qed.

End UncommentedLines.

(** ** The comment stripper: what a pass leaves behind *)

Section Occurrences.
Import WordPress.
Implicit Types (x y : char) (l line : jsstring) (p i : nat).

(** The two characters [x], [y] stand at [p] in [l]. *)
Lemma startsWith_pair x y l p :
  startsWith [x; y] (drop p l) = true ↔ l !! p = Some x ∧ l !! S p = Some y.
Proof.
  assert (l !! p = drop p l !! 0%nat) as ->
    by (by rewrite lookup_drop, Nat.add_0_r).
  assert (l !! S p = drop p l !! 1%nat) as ->
    by (by rewrite lookup_drop, Nat.add_1_r).
  destruct (drop p l) as [|a [|b t]]; cbn.
  - split; [done|]. by intros [? _].
  - rewrite andb_false_r. split; [done|]. by intros [_ ?].
  - rewrite andb_true_r, andb_true_iff, !N.eqb_eq.
    split; [by intros [-> ->]|]. by intros [[= ->] [= ->]].
Qed.

Lemma indexOf_None_pair x y l :
  indexOf [x; y] l = None ↔ ∀ p, ¬ (l !! p = Some x ∧ l !! S p = Some y).
Proof.
  induction l as [|c l IH].
  - cbn. split; [|done]. intros _ p [H _]. by destruct p.
  - cbn [indexOf]. destruct (startsWith [x; y] (c :: l)) eqn:E.
    + split; [done|]. intros H. exfalso. apply (H 0%nat).
      by apply (startsWith_pair x y (c :: l) 0).
    + destruct (indexOf [x; y] l) eqn:E'; cbn.
      * split; [done|]. intros H. exfalso.
        assert (Some n = None) as Hn; [|done].
        apply IH. intros p. apply (H (S p)).
      * split; [|done]. intros _ [|p].
        -- intros H%(startsWith_pair x y (c :: l) 0). cbn [drop] in H. congruence.
        -- by apply (proj1 IH).
Qed.

Lemma indexOf_Some_pair x y l i :
  indexOf [x; y] l = Some i →
  l !! i = Some x ∧ l !! S i = Some y
  ∧ ∀ p, (p < i)%nat → ¬ (l !! p = Some x ∧ l !! S p = Some y).
Proof.
  revert i. induction l as [|c l IH]; intros i; [done|].
  cbn [indexOf]. destruct (startsWith [x; y] (c :: l)) eqn:E.
  - intros [= <-]. apply (startsWith_pair x y (c :: l) 0) in E.
    split; [apply E|]. split; [apply E|]. lia.
  - destruct (indexOf [x; y] l) as [j|]; cbn; [|done].
    intros [= <-]. destruct (IH j eq_refl) as (H1 & H2 & H3).
    split; [done|]. split; [done|]. intros [|p] Hp.
    + intros H%(startsWith_pair x y (c :: l) 0). cbn [drop] in H. congruence.
    + apply H3. lia.
Qed.

(** The text before the first occurrence holds none. *)
Lemma indexOf_take_first x y l i :
  indexOf [x; y] l = Some i → indexOf [x; y] (take i l) = None.
Proof.
  intros (_ & _ & H)%indexOf_Some_pair. apply indexOf_None_pair.
  intros p [H1 H2]. apply lookup_take_Some in H1 as [H1 _].
  apply lookup_take_Some in H2 as [H2 Hlt]. apply (H p); [lia|done].
Qed.

Lemma indexOf_take_None x y l i :
  indexOf [x; y] l = None → indexOf [x; y] (take i l) = None.
Proof.
  rewrite !indexOf_None_pair. intros H p [H1 H2].
  apply lookup_take_Some in H1 as [H1 _].
  apply lookup_take_Some in H2 as [H2 _]. by apply (H p).
Qed.

Lemma indexOf_drop_None x y l i :
  indexOf [x; y] l = None → indexOf [x; y] (drop i l) = None.
Proof.
  rewrite !indexOf_None_pair. intros H p [H1 H2].
  unfold jsstring, char in *.
  rewrite lookup_drop in H1, H2. apply (H (i + p)%nat).
  by rewrite <- Nat.add_succ_r.
Qed.


Lemma indexOf_take_pair x y l i :
  indexOf [x; y] (take i l) = None
  ↔ ∀ p, (S p < i)%nat → ¬ (l !! p = Some x ∧ l !! S p = Some y).
Proof.
  rewrite indexOf_None_pair. unfold jsstring, char in *. split.
  - intros H p Hp [H1 H2]. apply (H p). rewrite !lookup_take_Some.
    repeat split; try done; lia.
  - intros H p [H1 H2]. apply lookup_take_Some in H1 as [H1 _].
    apply lookup_take_Some in H2 as [H2 Hp]. by apply (H p).
Qed.

Lemma indexOf_drop_pair x y l i :
  indexOf [x; y] (drop i l) = None
  ↔ ∀ p, (i ≤ p)%nat → ¬ (l !! p = Some x ∧ l !! S p = Some y).
Proof.
  rewrite indexOf_None_pair. unfold jsstring, char in *. split.
  - intros H p Hp [H1 H2]. apply (H (p - i)%nat). rewrite !lookup_drop.
    replace (i + (p - i))%nat with p by lia.
    by replace (i + S (p - i))%nat with (S p) by lia.
  - intros H p [H1 H2]. rewrite lookup_drop in H1, H2.
    apply (H (i + p)%nat); [lia|]. by rewrite <- Nat.add_succ_r.
Qed.

End Occurrences.

(** *** Tidy lines *)

Section Tidy.
Import WordPress Comments Samples.
Implicit Types (l line : jsstring) (lines out : list jsstring).

(** What the cut at the first [//] leaves holds no [//], and no [/*]
    when the line held none. *)
Lemma cut_lineComment l :
  let kept := match indexOf lineComment l with
              | Some lineCommentIndex => slice 0 lineCommentIndex l
              | None => l
              end in
  indexOf lineComment kept = None
  ∧ (indexOf blockOpen l = None → indexOf blockOpen kept = None).
Proof.
  cbv zeta. destruct (indexOf lineComment l) as [i|] eqn:E; [|done].
  unfold slice. rewrite Nat.sub_0_r. cbn [drop]. split.
  - by apply (indexOf_take_first 47%N 47%N).
  - apply (indexOf_take_None 47%N 42%N).
Qed.

(** On a line with one block opener and no block closer that ends
    before it, what stands before the opener joined to what stands
    after the closer holds no opener. *)
Lemma removed_block l s e :
  let newLine := slice 0 s l ++ sliceFrom (e + 2) l in
  indexOf blockOpen l = Some s →
  indexOf blockClose l = Some e →
  includes blockClose (take s l) = false →
  includes blockOpen (drop (S s) l) = false →
  indexOf blockOpen newLine = None.
Proof.
  cbv zeta. unfold slice, sliceFrom. rewrite Nat.sub_0_r.
  change (drop 0 l) with l.
  intros (Hs1 & Hs2 & Hfirst)%(indexOf_Some_pair 47%N 42%N)
         (He1 & He2 & _)%(indexOf_Some_pair 42%N 47%N)
         Hclose%includes_false Hopen%includes_false.
  pose proof (proj1 (indexOf_take_pair 42%N 47%N l s) Hclose) as Hc.
  pose proof (proj1 (indexOf_drop_pair 47%N 42%N l (S s)) Hopen) as Ho.
  assert (s ≤ S e)%nat as Hse.
  { destruct (decide (S e < s)%nat) as [Hlt|]; [|lia].
    by destruct (Hc e Hlt). }
  assert (length (take s l) = s) as Hlen.
  { apply length_take_le. apply lookup_lt_Some in Hs1. lia. }
  apply (indexOf_None_pair 47%N 42%N). intros p [H1 H2].
  unfold jsstring, char in *.
  destruct (decide (S p < s)%nat) as [Hp|Hp].
  - rewrite lookup_app_l in H1, H2 by lia.
    apply lookup_take_Some in H1 as [H1 _].
    apply lookup_take_Some in H2 as [H2 _].
    apply (Hfirst p); [lia|done].
  - destruct (decide (S p = s)) as [<-|Hne].
    + rewrite lookup_app_l in H1 by lia.
      rewrite lookup_app_r in H2 by lia.
      apply lookup_take_Some in H1 as [H1 _].
      rewrite Hlen, Nat.sub_diag, lookup_drop, Nat.add_0_r in H2.
      destruct (decide (e = p)) as [->|Hep]; [congruence|].
      apply (Ho (S e)); [lia|]. split; [done|].
      by replace (S (S e)) with (e + 2)%nat by lia.
    + rewrite lookup_app_r in H1, H2 by lia.
      rewrite Hlen, lookup_drop in H1, H2.
      apply (Ho (e + 2 + (p - s))%nat); [lia|]. split; [done|].
      by replace (S (e + 2 + (p - s))) with (e + 2 + (S p - s))%nat by lia.
Qed.

(** On a tidy line, what is kept holds neither [/*] nor [//], whether
    the line starts inside a block comment or not. *)
Lemma uncommentLine_clean inBlockComment line :
  oneBlockComment line = true →
  indexOf blockOpen (uncommentLine inBlockComment line).1 = None
  ∧ indexOf lineComment (uncommentLine inBlockComment line).1 = None.
Proof.
  intros Htidy.
  assert (∀ l, oneBlockComment l = true ∨ indexOf blockOpen l = None →
            let '(newLine, b) :=
              match indexOf blockOpen l, indexOf blockClose l with
              | Some i, Some j => (slice 0 i l ++ sliceFrom (j + 2) l, false)
              | Some i, None => (slice 0 i l, true)
              | None, _ => (l, false)
              end in
            indexOf blockOpen newLine = None) as Hblock.
  { intros l Hl. unfold oneBlockComment in Hl.
    destruct (indexOf blockOpen l) as [i|] eqn:Ei; [|done].
    destruct Hl as [Hl|Hl]; [|done].
    apply andb_true_iff in Hl as [Hc%negb_true_iff Ho%negb_true_iff].
    destruct (indexOf blockClose l) as [j|] eqn:Ej.
    - by apply (removed_block l i j).
    - unfold slice. rewrite Nat.sub_0_r. cbn [drop].
      by apply (indexOf_take_first 47%N 42%N). }
  assert (∀ l, oneBlockComment l = true ∨ indexOf blockOpen l = None →
            let out :=
              (let '(newLine, b) :=
                 match indexOf blockOpen l, indexOf blockClose l with
                 | Some i, Some j => (slice 0 i l ++ sliceFrom (j + 2) l, false)
                 | Some i, None => (slice 0 i l, true)
                 | None, _ => (l, false)
                 end in
               (match indexOf lineComment newLine with
                | Some i => slice 0 i newLine
                | None => newLine
                end, b)).1 in
            indexOf blockOpen out = None ∧ indexOf lineComment out = None)
    as Hout.
  { intros l Hl. specialize (Hblock l Hl). cbv zeta.
    destruct (match indexOf blockOpen l with Some _ => _ | None => _ end)
      as [newLine b].
    cbn [fst]. destruct (cut_lineComment newLine) as [H1 H2]. auto. }
  unfold uncommentLine. destruct inBlockComment.
  - destruct (indexOf blockClose line) as [j|] eqn:Ej; [|done].
    apply Hout. right. unfold substr.
    unfold oneBlockComment in Htidy.
    destruct (indexOf blockOpen line) as [i|] eqn:Ei;
      [|by apply (indexOf_drop_None 47%N 42%N)].
    apply andb_true_iff in Htidy as [Hc%negb_true_iff Ho%negb_true_iff].
    apply includes_false in Hc, Ho.
    apply (indexOf_Some_pair 42%N 47%N) in Ej as (He1 & He2 & _).
    pose proof (proj1 (indexOf_take_pair 42%N 47%N line i) Hc) as Hc'.
    assert (i ≤ S j)%nat as Hij.
    { destruct (decide (S j < i)%nat) as [Hlt|]; [|lia].
      by destruct (Hc' j Hlt). }
    apply (indexOf_drop_pair 47%N 42%N). intros p Hp.
    apply (proj1 (indexOf_drop_pair 47%N 42%N line (S i)) Ho). lia.
  - apply Hout. by left.
Qed.


(** The lines that the loop writes for tidy lines hold no marker. *)
Lemma uncommentLoop_clean lines inBlockComment acc :
  Forall (fun line => oneBlockComment line = true) lines →
  Forall (fun line => newline ∉ line) lines →
  ∃ out,
    uncommentLoop lines inBlockComment acc
    = acc ++ concat (map (fun line => line ++ [newline]) out)
    ∧ Forall (fun line => indexOf blockOpen line = None) out
    ∧ Forall (fun line => indexOf lineComment line = None) out
    ∧ Forall (fun line => newline ∉ line) out.
Proof.
  intros Htidy. revert inBlockComment acc.
  induction Htidy as [|line lines Hline _ IH]; intros b acc Hfree.
  - exists []. rewrite app_nil_r. by repeat split.
  - apply Forall_cons in Hfree as [Hnl Hfree]. cbn [uncommentLoop].
    pose proof (uncommentLine_subseteq b line) as Hsub.
    destruct (uncommentLine_clean b line Hline) as [Ho Hc].
    destruct (uncommentLine b line) as [newLine b']. cbn [fst] in *.
    destruct (IH b' (acc ++ newLine ++ [newline]) Hfree)
      as (out & -> & H1 & H2 & H3).
    exists (newLine :: out). cbn [map concat].
    split; [by rewrite <- !app_assoc|].
    repeat split; constructor; try done.
    intros Hin. by apply Hnl, Hsub.
Qed.

(** The restriction to tidy texts is needed: of two comments on a
    line the first pass removes the first only, and the second pass
    then removes the other. *)
Lemma uncommentedLines_second_comment :
  tidy (js "a /* b */ c /* d */ e") = false
  ∧ uncommentedLines (js "a /* b */ c /* d */ e")
    = js "a  c /* d */ e" ++ [newline]
  ∧ uncommentedLines (uncommentedLines (js "a /* b */ c /* d */ e"))
    = js "a  c  e" ++ [newline; newline].
Proof. repeat split; reflexivity. Qed.

(** C3, amended. On a text each line of which holds at most one [/*]
    and no [*/] that ends before it, the first pass leaves no [/*] and
    no [//] on any line, and the second pass gives the result of the
    first followed by one line feed, and changes nothing else. *)
Theorem uncommentedLines_twice t :
  tidy t = true →
  Forall (fun line => includes blockOpen line = false
                      ∧ includes lineComment line = false)
         (split newline (uncommentedLines t))
  ∧ uncommentedLines (uncommentedLines t) = uncommentedLines t ++ [newline].
Proof.
  intros Htidy. unfold tidy in Htidy. rewrite forallb_forall in Htidy.
  destruct (uncommentLoop_clean (split newline t) false [])
    as (out & Hout & Ho & Hc & Hnl).
  { apply Forall_forall. intros line Hline. apply Htidy.
    by apply list_elem_of_In. }
  { apply Forall_forall. intros line. apply split_parts_free. }
  cbn [app] in Hout.
  assert (split newline (uncommentedLines t) = out ++ [[]]) as Hsplit.
  { unfold uncommentedLines. rewrite Hout. by apply split_terminated_lines. }
  assert (Forall (fun line => indexOf blockOpen line = None) (out ++ [[]]))
    as Ho' by (apply Forall_app; split; [done|by repeat constructor]).
  assert (Forall (fun line => indexOf lineComment line = None) (out ++ [[]]))
    as Hc' by (apply Forall_app; split; [done|by repeat constructor]).
  split.
  - rewrite Hsplit. apply Forall_forall. intros line Hline.
    rewrite Forall_forall in Ho', Hc'. unfold includes.
    by rewrite (Ho' line Hline), (Hc' line Hline).
  - unfold uncommentedLines at 1. rewrite Hsplit.
    rewrite uncommentLoop_plain by done. cbn [app].
    rewrite map_app, concat_app. cbn [map concat app].
    unfold uncommentedLines. by rewrite Hout.
Qed.

Lemma uncommentedLines_twice_witness :
  Forall (fun line => includes blockOpen line = false
                      ∧ includes lineComment line = false)
         (split newline (uncommentedLines commented))
  ∧ uncommentedLines (uncommentedLines commented)
    = uncommentedLines commented ++ [newline].
Proof.
  apply (uncommentedLines_twice commented).
  reflexivity.
Defined.

End Tidy.

(** ** The declaration parser *)

Section ParseWpConfig.
Import Regex WordPress.
Implicit Types (obj : gmap jsstring value) (key : jsstring)
  (matches : list result).

Lemma assign_lookup_same obj key v :
  key ≠ js "__proto__" → assign obj key v !! key = Some v.
Proof.
  intros Hkey. unfold assign.
  rewrite bool_decide_eq_false_2 by done. apply lookup_insert_eq.
Qed.

Lemma assign_lookup_other obj key key' v :
  key' ≠ key → assign obj key' v !! key = obj !! key.
Proof.
  intros Hne. unfold assign. case_bool_decide; [done|].
  by apply lookup_insert_ne.
Qed.

(** Assigning the matches in order leaves, under every name but
    [__proto__], the value of the last match of that name. *)
Lemma fold_assign_last matches obj key :
  key ≠ js "__proto__" →
  fold_left (fun obj m => assign obj (captureKey m 1) (capture m 2))
    matches obj !! key
  = match lastMatch key matches with
    | Some m => Some (capture m 2)
    | None => obj !! key
    end.
Proof.
  intros Hkey. revert obj.
  induction matches as [|m matches IH]; intros obj; [done|].
  cbn [fold_left]. rewrite IH. unfold lastMatch.
  destruct (decide (captureKey m 1 = key)) as [Hm|Hm].
  - rewrite filter_cons_True by done.
    destruct (filter _ matches) as [|m' l] eqn:E.
    + cbn. rewrite <- Hm. apply assign_lookup_same. by rewrite Hm.
    + rewrite last_cons_cons.
      destruct (last (m' :: l)) eqn:El; [done|]. by apply last_None in El.
  - rewrite filter_cons_False by done.
    destruct (last _); [done|]. by apply assign_lookup_other.
Qed.

Lemma collect_last matches key :
  key ≠ js "__proto__" →
  collect matches !! key
  = (fun m => capture m 2) <$> lastMatch key matches.
Proof.
  intros Hkey. unfold collect. rewrite fold_assign_last by done.
  by destruct (lastMatch key matches).
Qed.

(** For every name other than [__proto__], both mappings of
    [parseWpConfig] hold the value of the textually last match of the
    name, and nothing for a name that is not matched. *)
Lemma parseWpConfig_last_wins content key :
  key ≠ js "__proto__" →
  ∃ config,
    parseWpConfig (Some content) = Some config
    ∧ constants config !! key
      = (fun m => capture m 2)
          <$> lastMatch key (matchAll defineRegex (uncommentedLines content))
    ∧ variables config !! key
      = (fun m => capture m 2)
          <$> lastMatch key (matchAll variableRegex (uncommentedLines content)).
Proof.
  intros Hkey. eexists. split; [reflexivity|].
  cbn [constants variables]. by rewrite !collect_last.
Qed.

Lemma parseWpConfig_repeated_dbname :
  ∃ config,
    parseWpConfig (Some (js "$dbname = 'first'; $dbname = 'second';"))
      = Some config
    ∧ variables config !! js "dbname" = Some (VString (js "second")).
Proof.
  destruct (parseWpConfig_last_wins
              (js "$dbname = 'first'; $dbname = 'second';") (js "dbname"))
    as (config & Hparse & _ & Hvar); [done|].
  exists config. split; [done|]. rewrite Hvar. reflexivity.
Qed.

(** C9. The mappings are objects created by [{}], and the assignment
    [variables[key] = value] under the name [__proto__] goes to the
    setter inherited from [Object.prototype], which ignores a string.
    A variable of that name, assigned twice, is matched twice and
    is not in the mapping at all: the value of its last occurrence is
    not held. *)
Theorem parseWpConfig_proto_not_held :
  let text := js "$__proto__ = 'first'; $__proto__ = 'second';" in
  map (fun m => (captureKey m 1, capture m 2))
      (matchAll variableRegex (uncommentedLines text))
  = [ (js "__proto__", VString (js "first"));
      (js "__proto__", VString (js "second")) ]
  ∧ ∃ config,
      parseWpConfig (Some text) = Some config
      ∧ variables config !! js "__proto__" = None.
Proof. split; [reflexivity|]. eexists. split; reflexivity. Qed.

End ParseWpConfig.

(** ** The matcher *)

Section RegexFacts.
Import Regex.
Implicit Types (r : regex) (p : pattern) (s t : jsstring) (caps : captures)
  (k : cont).

Lemma orElse_Some {A} (a b : option A) x :
  orElse a b = Some x → a = Some x ∨ b = Some x.
Proof. destruct a; simpl; auto. Qed.

(** A successful match hands to its continuation a suffix of the
    input. *)
Lemma run_suffix r : ∀ s caps k res,
  run r s caps k = Some res →
  ∃ s1 caps1, s1 `suffix_of` s ∧ k s1 caps1 = Some res.
Proof.
  induction r as [|c|r1 IH1 r2 IH2|r1 IH1 r2 IH2|greedy r1 IH1|i r1 IH1|];
    intros s caps k res; cbn [run].
  - intros H. by exists s, caps.
  - destruct s as [|c0 s]; [done|]. destruct (c c0); [|done].
    intros H. exists s, caps. split; [by apply suffix_cons_r|done].
  - intros (s1 & c1 & Hs1 & H)%IH1. apply IH2 in H as (s2 & c2 & Hs2 & H).
    exists s2, c2. split; [by etrans|done].
  - intros [H|H]%orElse_Some; [by apply IH1 in H|by apply IH2 in H].
  - generalize (length s) as n. intros n. revert s caps.
    induction n as [|n IHn]; intros s caps.
    + intros H. by exists s, caps.
    + assert (run r1 s caps
                (fun s' caps' =>
                   if (length s' <? length s)%nat
                   then (fix loop (n : nat) (s : jsstring) (caps : captures)
                           {struct n} :=
                           match n with
                           | O => k s caps
                           | S n' =>
                               let again :=
                                 run r1 s caps (fun s' caps' =>
                                   if (length s' <? length s)%nat
                                   then loop n' s' caps' else None) in
                               if greedy then orElse again (k s caps)
                               else orElse (k s caps) again
                           end) n s' caps'
                   else None) = Some res
              → ∃ s1 caps1, s1 `suffix_of` s ∧ k s1 caps1 = Some res)
        as Hagain.
      { intros (s1 & c1 & Hs1 & H)%IH1.
        destruct (_ <? _)%nat; [|done].
        apply IHn in H as (s2 & c2 & Hs2 & H).
        exists s2, c2. split; [by etrans|done]. }
      destruct greedy; intros [H|H]%orElse_Some; auto;
        by exists s, caps.
  - intros (s1 & c1 & Hs1 & H)%IH1. eauto.
  - destruct s; [|done]. intros H. by exists [], caps.
Qed.

(** What a match leaves is a suffix of the input, and the matched text
    is what stands before it. *)
Lemma matchAt_split p s s' caps :
  matchAt p s = Some (s', caps) →
  ∃ m, s = m ++ s' ∧ take (length s - length s') s = m.
Proof.
  intros (s1 & c1 & [m ->] & [= -> ->])%run_suffix.
  exists m. split; [done|].
  rewrite length_app.
  replace (length m + length s' - length s')%nat with (length m) by lia.
  by rewrite take_app_length.
Qed.

Lemma search_unfold p i s :
  search p i s
  = match matchAt p s with
    | Some (s', caps) =>
        Some {| index := i;
                groups := <[0%nat := Some (take (length s - length s') s)]> caps;
                rest := s' |}
    | None =>
        match s with
        | [] => None
        | _ :: s' => search p (S i) s'
        end
    end.
Proof. by destruct s. Qed.

(** [search] returns the leftmost position at which the pattern
    matches, and the match found there. *)
Lemma search_leftmost p s : ∀ i res,
  search p i s = Some res →
  ∃ before m caps,
    s = before ++ m ++ rest res
    ∧ index res = (i + length before)%nat
    ∧ matchAt p (m ++ rest res) = Some (rest res, caps)
    ∧ groups res = <[0%nat := Some m]> caps
    ∧ ∀ j, (j < length before)%nat → matchAt p (drop j s) = None.
Proof.
  induction s as [|c s IH]; intros i res; rewrite search_unfold;
    destruct (matchAt p _) as [[s' caps]|] eqn:E; try done.
  1, 2: destruct (matchAt_split _ _ _ _ E) as (m & Hm & Htake);
    rewrite Htake; intros [= <-]; cbn [rest index groups];
    exists [], m, caps; cbn [app length];
    rewrite <- Hm, E; repeat split; [lia|]; intros j Hj; lia.
  intros (before & m & caps & Hs & Hi & Hm & Hg & Hleft)%IH.
  exists (c :: before), m, caps. cbn [length app].
  split; [by rewrite Hs|]. split; [lia|]. split; [done|]. split; [done|].
  intros [|j] Hj; [done|]. cbn [drop]. apply Hleft. lia.
Qed.

(** A match somewhere in the text makes [search] succeed. *)
Lemma search_finds p s1 s2 x i :
  matchAt p s2 = Some x → is_Some (search p i (s1 ++ s2)).
Proof.
  intros Hx. revert i. induction s1 as [|c s1 IH]; intros i.
  - cbn [app]. destruct s2; cbn [search]; rewrite Hx; by destruct x.
  - cbn [app search]. destruct (matchAt p (c :: s1 ++ s2)) as [[]|]; [done|].
    apply IH.
Qed.

(** *** Stepping through a pattern *)

Lemma run_lit l s caps k : run (lit l) (l ++ s) caps k = k s caps.
Proof.
  induction l as [|c l IH]; [done|].
  cbn [lit run app char_is]. by rewrite N.eqb_refl.
Qed.

Lemma run_char c s caps k : run (char_is c) ([c] ++ s) caps k = k s caps.
Proof. cbn [run char_is app]. by rewrite N.eqb_refl. Qed.

Lemma run_Seq r1 r2 s caps k :
  run (Seq r1 r2) s caps k
  = run r1 s caps (fun s' caps' => run r2 s' caps' k).
Proof. reflexivity. Qed.

(** A greedy repetition of a class takes a whole run of the class,
    when what follows the run matches. *)
Lemma run_star_greedy (f : char → bool) a s caps k res :
  Forall (fun c => f c = true) a →
  match s with [] => True | c :: _ => f c = false end →
  k s caps = Some res →
  run (Star true (Chr f)) (a ++ s) caps k = Some res.
Proof.
  intros Ha Hs Hk. cbn [run].
  assert (length (a ++ s) ≤ length (a ++ s))%nat as Hn by lia.
  revert Hn. generalize (length (a ++ s)) at 2 3 as n.
  intros n. revert n.
  induction Ha as [|c a Hc Ha IH]; intros n Hn.
  - cbn [app] in *. destruct n as [|n]; [done|].
    destruct s as [|c s]; [by rewrite Hk|]. by rewrite Hs, Hk.
  - destruct n as [|n]; [cbn in Hn; lia|].
    cbn [app]. rewrite Hc.
    rewrite (proj2 (Nat.ltb_lt _ _)) by (cbn; lia).
    rewrite IH; [done|]. cbn in Hn. lia.
Qed.

End RegexFacts.

(** ** The config templater *)

Section ReplaceDbConstant.
Import Regex WordPress.
Implicit Types (s t u v needle input : jsstring).

Lemma startsWith_spec needle s :
  startsWith needle s = true ↔ ∃ t, s = needle ++ t.
Proof.
  revert s. induction needle as [|a needle IH]; intros s.
  - split; [by exists s|by destruct s].
  - destruct s as [|b s]; cbn [startsWith].
    + split; [done|]. by intros [t Ht].
    + rewrite andb_true_iff, N.eqb_eq, IH. split.
      * intros [-> [t ->]]. by exists t.
      * intros [t [= -> ->]]. eauto.
Qed.

Lemma includes_spec needle s :
  includes needle s = true ↔ ∃ u v, s = u ++ needle ++ v.
Proof.
  unfold includes. split.
  - induction s as [|c s IH]; cbn [indexOf];
      destruct (startsWith needle _) eqn:E.
    + apply startsWith_spec in E as [t ->]. by exists [], t.
    + done.
    + apply startsWith_spec in E as [t ->]. by exists [], t.
    + destruct (indexOf needle s); [|done].
      intros _. destruct IH as (u & v & ->); [done|]. by exists (c :: u), v.
  - intros (u & v & ->). induction u as [|c u IH].
    + cbn [app]. destruct (needle ++ v) eqn:E; cbn [indexOf];
        rewrite <- ?E, (proj2 (startsWith_spec needle (needle ++ v))); eauto.
    + cbn [app indexOf]. destruct (startsWith needle _); [done|].
      by destruct (indexOf needle _).
Qed.

(** An occurrence in a concatenation lies in the left part, in the
    right part, or across the seam. *)
Lemma includes_app needle s t :
  includes needle (s ++ t) = true →
  includes needle s = true ∨ includes needle t = true
  ∨ ∃ n1 n2, needle = n1 ++ n2 ∧ n1 ≠ [] ∧ n2 ≠ []
             ∧ n1 `suffix_of` s ∧ n2 `prefix_of` t.
Proof.
  rewrite !includes_spec. intros (u & v & H).
  apply app_eq_app in H as [l [[-> H]|[-> ->]]].
  - apply app_eq_app in H as [l' [[-> ->]|[-> ->]]].
    + destruct l as [|a l]; [right; left; by exists [], v|].
      destruct l' as [|a' l'].
      * left. exists u, []. by rewrite !app_nil_r.
      * right; right. exists (a :: l), (a' :: l').
        repeat split; try done; [by exists u|by exists v].
    + left. by exists u, l'.
  - right; left. by exists l, v.
Qed.

Lemma includes_app_l needle s t :
  includes needle s = true → includes needle (s ++ t) = true.
Proof.
  rewrite !includes_spec. intros (u & v & ->).
  exists u, (v ++ t). by rewrite <- !app_assoc.
Qed.

Lemma includes_app_r needle s t :
  includes needle t = true → includes needle (s ++ t) = true.
Proof.
  rewrite !includes_spec. intros (u & v & ->).
  exists (s ++ u), v. by rewrite <- !app_assoc.
Qed.

(** The pattern of [replaceDbConstant] matches a define statement of
    the name, whatever the spacing and the value between the quotes. *)
Lemma dbConstantRegex_matches constantName w1 w2 w3 w4 v t :
  Forall (fun c => isSpace c = true) w1 →
  Forall (fun c => isSpace c = true) w2 →
  Forall (fun c => isSpace c = true) w3 →
  Forall (fun c => isSpace c = true) w4 →
  Forall (fun c => notQuote c = true) v →
  matchAt (dbConstantRegex constantName)
    (js "define(" ++ w1 ++ [quote] ++ constantName ++ [quote] ++ w2
       ++ js "," ++ w3 ++ [quote] ++ v ++ [quote] ++ w4 ++ js ");" ++ t)
  = Some (t, [None]).
Proof.
  intros H1 H2 H3 H4 Hv. unfold matchAt, dbConstantRegex, spaces.
  cbn [body ngroups replicate].
  repeat (cbv beta; rewrite ?run_Seq;
          first [ rewrite run_lit
                | rewrite run_char
                | apply run_star_greedy; [done|exact eq_refl|] ]).
  reflexivity.
Qed.

(** [replace] rewrites the leftmost match and nothing else. *)
Lemma replace_leftmost p template input res :
  exec p input = Some res →
  ∃ before m caps,
    input = before ++ m ++ rest res
    ∧ matchAt p (m ++ rest res) = Some (rest res, caps)
    ∧ (∀ j, (j < length before)%nat → matchAt p (drop j input) = None)
    ∧ replace p template input
      = before ++ getSubstitution res before template ++ rest res.
Proof.
  intros Hexec. unfold replace. rewrite Hexec.
  apply search_leftmost in Hexec
    as (before & m & caps & Hs & Hi & Hm & _ & Hleft).
  exists before, m, caps. repeat split; try done.
  assert (take (index res) input = before) as ->; [|done].
  rewrite Hi, Hs. cbn [Nat.add]. by rewrite take_app_length.
Qed.

(** The value ['old'] does not lie across a seam of the canonical
    statement for ['new']. *)
Lemma old_not_across_start (n1 n2 after : jsstring) :
  js "'old'" = n1 ++ n2 → n1 ≠ [] → n2 ≠ [] →
  ¬ n2 `prefix_of` js "define( 'DB_NAME', 'new' );" ++ after.
Proof.
  intros Hq Hn1 Hn2 [t Ht].
  literal Hq "'old'"%string. literal Ht "define( 'DB_NAME', 'new' );"%string.
  cbn [app] in Ht.
  destruct n1 as [|a1 n1]; [done|].
  repeat (destruct n1 as [|? n1]; cbn [app] in *; simplify_eq).
Qed.

Lemma old_not_across_end (n1 n2 : jsstring) :
  js "'old'" = n1 ++ n2 → n1 ≠ [] → n2 ≠ [] →
  ¬ n1 `suffix_of` js "define( 'DB_NAME', 'new' );".
Proof.
  intros Hq Hn1 Hn2 [t Ht].
  apply (f_equal (@rev _)) in Ht. rewrite rev_app_distr in Ht.
  literal Hq "'old'"%string. literal Ht "define( 'DB_NAME', 'new' );"%string.
  destruct n1 as [|a1 n1]; [done|].
  repeat (destruct n1 as [|? n1]; cbn [app rev] in *; simplify_eq).
Qed.

(** In a text whose middle is the canonical statement for ['new'],
    ['old'] occurs just where it occurs before or after the statement. *)
Lemma old_around_new (before after : jsstring) :
  includes (js "'old'")
    (before ++ js "define( 'DB_NAME', 'new' );" ++ after)
  = includes (js "'old'") before || includes (js "'old'") after.
Proof.
  apply eq_true_iff_eq. rewrite orb_true_iff. split.
  - intros [H|[H|(n1 & n2 & Hq & Hn1 & Hn2 & _ & H)]]%includes_app; [by left| |].
    + apply includes_app in H as [H|[H|(n1 & n2 & Hq & Hn1 & Hn2 & H & _)]].
      * discriminate H.
      * by right.
      * by destruct (old_not_across_end n1 n2).
    + by destruct (old_not_across_start n1 n2 after).
  - intros [H|H]; [by apply includes_app_l|].
    by apply includes_app_r, includes_app_r.
Qed.

(** C6 as stated fails: only the first statement that the pattern
    matches is rewritten, and here that is a commented-out one on the
    line above; the statement with ['old'] stays as it was. *)
Lemma replaceDbConstant_leaves_later_statement :
  let input :=
    js "// define( 'DB_NAME', 'sample' );" ++ [newline]
      ++ js "define( 'DB_NAME', 'old' );" in
  includes (js "define( 'DB_NAME', 'old' );") input = true
  ∧ replaceDbConstant input (js "DB_NAME") (js "new")
    = js "// define( 'DB_NAME', 'new' );" ++ [newline]
        ++ js "define( 'DB_NAME', 'old' );"
  ∧ includes (js "'old'")
      (replaceDbConstant input (js "DB_NAME") (js "new")) = true.
Proof. repeat split; reflexivity. Qed.

(** C6, amended. In a text that holds the statement for ['old'], the
    first statement that the pattern for [DB_NAME] matches (no match
    starts before it) is replaced by the canonical statement for
    ['new'], and the text before and after it is kept; so the result
    holds the statement for ['new'], and holds ['old'] just when the
    text before or the text after the replaced statement does. *)
Theorem replaceDbConstant_first_statement (input : jsstring) :
  includes (js "define( 'DB_NAME', 'old' );") input = true →
  ∃ before statement after,
    input = before ++ statement ++ after
    ∧ (∃ caps, matchAt (dbConstantRegex (js "DB_NAME")) (statement ++ after)
               = Some (after, caps))
    ∧ (∀ j, (j < length before)%nat →
            matchAt (dbConstantRegex (js "DB_NAME")) (drop j input) = None)
    ∧ replaceDbConstant input (js "DB_NAME") (js "new")
      = before ++ js "define( 'DB_NAME', 'new' );" ++ after
    ∧ includes (js "define( 'DB_NAME', 'new' );")
        (replaceDbConstant input (js "DB_NAME") (js "new")) = true
    ∧ includes (js "'old'")
        (replaceDbConstant input (js "DB_NAME") (js "new"))
      = includes (js "'old'") before || includes (js "'old'") after.
Proof.
  intros (u & v & ->)%includes_spec.
  assert (matchAt (dbConstantRegex (js "DB_NAME"))
            (js "define( 'DB_NAME', 'old' );" ++ v) = Some (v, [None]))
    as Hcanon.
  { apply (dbConstantRegex_matches (js "DB_NAME") (js " ") [] (js " ")
             (js " ") (js "old") v);
      vm_compute; repeat constructor. }
  destruct (search_finds _ u _ _ 0%nat Hcanon) as [res Hexec].
  destruct (replace_leftmost _
              (js "define( '" ++ js "DB_NAME" ++ js "', '" ++ js "new"
                 ++ js "' );") _ _ Hexec)
    as (before & m & caps & Hs & Hm & Hleft & Hreplace).
  exists before, m, (rest res).
  assert (replaceDbConstant (u ++ js "define( 'DB_NAME', 'old' );" ++ v)
            (js "DB_NAME") (js "new")
          = before ++ js "define( 'DB_NAME', 'new' );" ++ rest res) as ->.
  { unfold replaceDbConstant. rewrite Hreplace. reflexivity. }
  split; [done|]. split; [by exists caps|]. split; [done|]. split; [done|].
  split; [|apply old_around_new].
  apply includes_spec. by exists before, (rest res).
Qed.

Lemma replaceDbConstant_first_statement_witness :
  ∃ before statement after,
    js "<?php define( 'DB_NAME', 'old' ); define( 'DB_USER', 'old' );"
    = before ++ statement ++ after
    ∧ (∃ caps, matchAt (dbConstantRegex (js "DB_NAME")) (statement ++ after)
               = Some (after, caps))
    ∧ (∀ j, (j < length before)%nat →
            matchAt (dbConstantRegex (js "DB_NAME"))
              (drop j (js "<?php define( 'DB_NAME', 'old' ); define( 'DB_USER', 'old' );"))
            = None)
    ∧ replaceDbConstant
        (js "<?php define( 'DB_NAME', 'old' ); define( 'DB_USER', 'old' );")
        (js "DB_NAME") (js "new")
      = before ++ js "define( 'DB_NAME', 'new' );" ++ after
    ∧ includes (js "define( 'DB_NAME', 'new' );")
        (replaceDbConstant
           (js "<?php define( 'DB_NAME', 'old' ); define( 'DB_USER', 'old' );")
           (js "DB_NAME") (js "new")) = true
    ∧ includes (js "'old'")
        (replaceDbConstant
           (js "<?php define( 'DB_NAME', 'old' ); define( 'DB_USER', 'old' );")
           (js "DB_NAME") (js "new"))
      = includes (js "'old'") before || includes (js "'old'") after.
Proof.
  apply (replaceDbConstant_first_statement
           (js "<?php define( 'DB_NAME', 'old' ); define( 'DB_USER', 'old' );")).
  reflexivity.
Defined.

End ReplaceDbConstant.

(** * Further properties *)

(** ** The archive extractor: what the root can be *)

Section ExtractZipRoot.
Import Fs Roots.

Lemma narrow_single (r : jsstring) (parts : list jsstring) (i : nat) :
  slash ∉ r → narrow r parts i = r ∨ narrow r parts i = [].
Proof.
  intros Hfree. revert i. induction parts as [|p parts IH]; intros i; [by left|].
  cbn [narrow]. rewrite (split_free _ _ Hfree).
  case_bool_decide; [apply IH|].
  destruct i as [|i]; [by right|left]. cbn. by destruct i.
Qed.

Lemma onEntry_rootOf seen c fileName :
  rootOf seen c → rootOf (seen ++ [fileName]) (onEntry c fileName).
Proof.
  intros Hc. unfold onEntry.
  destruct (split slash fileName) as [|p ps] eqn:E;
    [by destruct (split_nonempty slash fileName)|].
  assert (rootOf (seen ++ [fileName]) (Some p)) as Hfirst.
  { right. exists fileName.
    split; [apply elem_of_app; right; by left|by rewrite E]. }
  destruct c as [[|a r]|]; cbn [falsy]; try done.
  destruct Hc as [?|(n & Hn & Hr)]; [done|].
  assert (slash ∉ a :: r) as Hfree.
  { eapply split_parts_free, list_elem_of_lookup_2, Hr. }
  destruct (narrow_single (a :: r) (p :: ps) 0 Hfree) as [-> | ->].
  - right. exists n. split; [apply elem_of_app; by left|done].
  - by left.
Qed.

Lemma fold_onEntry_rootOf names seen c :
  rootOf seen c → rootOf (seen ++ names) (fold_left onEntry names c).
Proof.
  revert seen c. induction names as [|n names IH]; intros seen c Hc.
  - by rewrite app_nil_r.
  - cbn [fold_left]. rewrite (cons_middle n), app_assoc.
    by apply IH, onEntry_rootOf.
Qed.

(** X1. When the extraction succeeds, [extractZip] returns [undefined]
    just for an archive without entries; otherwise it returns a string
    that is empty or is the top-level segment of one of the entries, so
    that it never holds a slash. *)
Theorem extractZip_root_is_top_level (names : list jsstring) :
  (extractZip {| entries := names; failure := None |} = Resolved VUndefined
   ↔ names = [])
  ∧ ∀ v, extractZip {| entries := names; failure := None |} = Resolved v →
         v = VUndefined
         ∨ ∃ r, v = VString r ∧ (slash ∉ r)
                ∧ (r = [] ∨ ∃ n, n ∈ names ∧ split slash n !! 0%nat = Some r).
Proof.
  unfold extractZip. cbn [entries failure].
  pose proof (fold_onEntry_rootOf names [] None eq_refl) as Hroot.
  cbn [app] in Hroot.
  destruct (fold_left onEntry names None) as [r|] eqn:E;
    cbn [ofRoot rootOf] in *.
  - split.
    + split; [done|]. intros ->. discriminate E.
    + intros v [= <-]. right. exists r. split; [done|]. split; [|done].
      destruct Hroot as [->|(n & _ & Hr)]; [apply not_elem_of_nil|].
      eapply split_parts_free, list_elem_of_lookup_2, Hr.
  - split; [done|]. intros v [= <-]. by left.
Qed.

End ExtractZipRoot.

(** ** The asset fetcher: disk, chains and loops *)

Section DownloadFileMore.
Import Fs Redirects Samples.
Implicit Types (env : environment) (w : world) (url targetFile : jsstring).

Lemma afterRedirect_Resolved (inner : option (outcome * world)) v w' :
  afterRedirect inner = Some (Resolved v, w') → inner = Some (Resolved v, w').
Proof. destruct inner as [[[] ?]|]; simpl; by intros [= <- <-]. Qed.

Lemma downloadFile_resolved_exists fuel env w url targetFile v w' :
  downloadFile fuel env w url targetFile = Some (Resolved v, w') →
  existsSync (disk w') targetFile = true.
Proof.
  revert w url. induction fuel as [|fuel IH]; intros w url; [done|].
  cbn [downloadFile].
  destruct (existsSync (disk w) targetFile) eqn:E; [by intros [= <- <-]|].
  destruct (get env url) as [r|e]; [|done].
  destruct (_ >=? _)%Z; [done|].
  destruct (_ && _ && _).
  - intros H%afterRedirect_Resolved. by apply IH in H.
  - destruct (writable env targetFile); [|done]. intros [= <- <-].
    unfold existsSync, write. cbn. apply bool_decide_eq_true_2.
    rewrite lookup_insert_eq. by eexists.
Qed.

(** X2. A download that resolves leaves a file at the target, so every
    later download to that target, whatever its URL, resolves at once
    with [undefined], issues no request and changes nothing. *)
Theorem downloadFile_then_skipped fuel env w url targetFile v w' :
  downloadFile fuel env w url targetFile = Some (Resolved v, w') →
  existsSync (disk w') targetFile = true
  ∧ ∀ fuel' url',
      downloadFile (S fuel') env w' url' targetFile
      = Some (Resolved VUndefined, w').
Proof.
  intros H%downloadFile_resolved_exists. split; [done|].
  intros fuel' url'. cbn [downloadFile]. by rewrite H.
Qed.

Lemma downloadFile_then_skipped_witness :
  existsSync
    (disk (write (js "temp/wordpress.zip") (js "PK")
             (request (js "https://downloads.w.org/wp.zip")
                {| disk := ∅; requests := [] |})))
    (js "temp/wordpress.zip") = true
  ∧ ∀ fuel' url',
      downloadFile (S fuel') moved
        (write (js "temp/wordpress.zip") (js "PK")
           (request (js "https://downloads.w.org/wp.zip")
              {| disk := ∅; requests := [] |}))
        url' (js "temp/wordpress.zip")
      = Some (Resolved VUndefined,
              write (js "temp/wordpress.zip") (js "PK")
                (request (js "https://downloads.w.org/wp.zip")
                   {| disk := ∅; requests := [] |})).
Proof.
  apply (downloadFile_then_skipped 1 moved {| disk := ∅; requests := [] |}
           (js "https://downloads.w.org/wp.zip") (js "temp/wordpress.zip")
           VObject).
  reflexivity.
Defined.

Lemma downloadFile_redirects fuel env w url next targetFile :
  existsSync (disk w) targetFile = false →
  redirects env url next →
  downloadFile (S fuel) env w url targetFile
  = afterRedirect (downloadFile fuel env (request url w) next targetFile).
Proof.
  intros Hnew (r & Hget & [Hlo Hhi] & Hloc & Hne).
  cbn [downloadFile]. rewrite Hnew, Hget.
  rewrite Z.geb_leb, (proj2 (Z.leb_gt _ _)) by lia.
  rewrite Z.gtb_ltb, (proj2 (Z.ltb_lt 300 _)) by lia.
  rewrite (proj2 (Z.ltb_lt _ _)) by lia.
  unfold hasLocation. rewrite Hloc. by destruct next.
Qed.

(** X4. Where every URL answers with a redirect (a loop of redirects,
    for one), a download to a target that does not exist never comes
    to an end: no amount of fuel gives a result. *)
Theorem downloadFile_redirect_loop env targetFile :
  (∀ url, ∃ next, redirects env url next) →
  ∀ fuel w url,
    existsSync (disk w) targetFile = false →
    downloadFile fuel env w url targetFile = None.
Proof.
  intros Hall. induction fuel as [|fuel IH]; intros w url Hnew; [done|].
  destruct (Hall url) as [next Hnext].
  rewrite (downloadFile_redirects _ _ _ _ next) by done.
  by rewrite IH.
Qed.

Lemma downloadFile_redirect_loop_witness :
  downloadFile 1000 redirectLoop {| disk := ∅; requests := [] |}
    (js "https://wordpress.org/latest.zip") (js "temp/wordpress.zip")
  = None.
Proof.
  apply (downloadFile_redirect_loop redirectLoop (js "temp/wordpress.zip"));
    [|reflexivity].
  intros url. exists (js "https://wordpress.org/latest.zip").
  eexists. split; [reflexivity|]. split; [simpl; lia|]. by split.
Defined.

(** The world after the requests of a chain. *)
Lemma request_chain w url hops :
  fold_left (fun w u => request u w) hops (request url w)
  = {| disk := disk w; requests := requests w ++ url :: hops |}.
Proof.
  revert w url. induction hops as [|next hops IH]; intros w url; [done|].
  cbn [fold_left]. rewrite IH. cbn. by rewrite <- app_assoc.
Qed.

(** X5. A chain of redirects that leads to a response whose body is
    written is followed to its end, given fuel for it: the download
    requests the URL and every hop in turn, writes the body of the last
    response to the target, and resolves with the empty object. *)
Theorem downloadFile_follows_chain env hops : ∀ w url final content targetFile extra,
  existsSync (disk w) targetFile = false →
  writable env targetFile = true →
  leads env url hops final →
  delivers env final content →
  downloadFile (S (length hops + extra)) env w url targetFile
  = Some (Resolved VObject,
          {| disk := <[targetFile := File content]> (disk w);
             requests := requests w ++ url :: hops |}).
Proof.
  induction hops as [|next hops IH];
    intros w url final content targetFile extra Hnew Hwr Hleads Hfinal.
  - cbn in Hleads. subst final.
    destruct Hfinal as (r & Hget & Hcode & Hnot & <-).
    cbn [downloadFile length Nat.add]. rewrite Hnew, Hget, Hwr.
    rewrite Z.geb_leb, (proj2 (Z.leb_gt _ _)) by lia.
    assert ((default 0 (statusCode r) >? 300)%Z
            && (default 0 (statusCode r) <? 400)%Z && hasLocation r = false)
      as ->; [|done].
    destruct Hnot as [Hle | ->]; [|by rewrite andb_false_r].
    by rewrite Z.gtb_ltb, (proj2 (Z.ltb_ge 300 _)) by lia.
  - destruct Hleads as [Hred Hleads].
    cbn [length Nat.add]. rewrite (downloadFile_redirects _ _ _ _ next) by done.
    rewrite (IH (request url w) next final content) by done.
    cbn. by rewrite <- app_assoc.
Qed.

Lemma downloadFile_follows_chain_witness :
  downloadFile 2 moved {| disk := ∅; requests := [] |}
    (js "https://wordpress.org/latest.zip") (js "temp/wordpress.zip")
  = Some (Resolved VObject,
          {| disk := <[js "temp/wordpress.zip" := File (js "PK")]> ∅;
             requests := [js "https://wordpress.org/latest.zip";
                          js "https://downloads.w.org/wp.zip"] |}).
Proof.
  apply (downloadFile_follows_chain moved [js "https://downloads.w.org/wp.zip"]
           {| disk := ∅; requests := [] |}
           (js "https://wordpress.org/latest.zip")
           (js "https://downloads.w.org/wp.zip") (js "PK")
           (js "temp/wordpress.zip") 0).
  - reflexivity.
  - reflexivity.
  - split; [|reflexivity].
    eexists. split; [reflexivity|]. split; [simpl; lia|]. by split.
  - eexists. split; [reflexivity|]. split; [simpl; lia|].
    split; [by right|reflexivity].
Defined.

(** X6. A failure at the end of a chain of one or more redirects is not
    reported: the download has issued every request and written
    nothing, and its promise neither resolves nor rejects.  Only a
    failure of the first request rejects. *)
Theorem downloadFile_failure_after_redirect env hops :
  ∀ w url final targetFile extra,
    existsSync (disk w) targetFile = false →
    leads env url hops final →
    fails env final →
    ∃ o,
      downloadFile (S (length hops + extra)) env w url targetFile
      = Some (o, {| disk := disk w; requests := requests w ++ url :: hops |})
      ∧ (hops = [] → ∃ e, o = Rejected e)
      ∧ (hops ≠ [] → o = NeverSettles).
Proof.
  induction hops as [|next hops IH];
    intros w url final targetFile extra Hnew Hleads Hfails.
  - cbn in Hleads. subst final. cbn [downloadFile length Nat.add]. rewrite Hnew.
    destruct Hfails as [(r & Hget & Hcode)|[e Hget]]; rewrite Hget.
    + rewrite (proj2 (Z.geb_le _ _)) by lia.
      eexists. split; [done|]. split; [eauto|done].
    + eexists. split; [done|]. split; [eauto|done].
  - destruct Hleads as [Hred Hleads].
    cbn [length Nat.add]. rewrite (downloadFile_redirects _ _ _ _ next) by done.
    destruct (IH (request url w) next final targetFile extra)
      as (o & -> & Hnil & Hcons); [done..|].
    exists NeverSettles. cbn. rewrite <- app_assoc.
    split; [|done].
    destruct hops as [|h hops].
    + by destruct Hnil as [e ->].
    + by rewrite Hcons.
Qed.

Lemma downloadFile_failure_after_redirect_witness :
  ∃ o,
    downloadFile 2 movedAway {| disk := ∅; requests := [] |}
      (js "https://wordpress.org/latest.zip") (js "temp/wordpress.zip")
    = Some (o, {| disk := ∅;
                  requests := [js "https://wordpress.org/latest.zip";
                               js "https://downloads.w.org/gone.zip"] |})
    ∧ ([js "https://downloads.w.org/gone.zip"] = [] → ∃ e, o = Rejected e)
    ∧ ([js "https://downloads.w.org/gone.zip"] ≠ [] → o = NeverSettles).
Proof.
  apply (downloadFile_failure_after_redirect movedAway
           [js "https://downloads.w.org/gone.zip"]
           {| disk := ∅; requests := [] |}
           (js "https://wordpress.org/latest.zip")
           (js "https://downloads.w.org/gone.zip")
           (js "temp/wordpress.zip") 0).
  - reflexivity.
  - split; [|reflexivity].
    eexists. split; [reflexivity|]. split; [simpl; lia|]. by split.
  - left. eexists. split; [reflexivity|]. simpl. lia.
Defined.

End DownloadFileMore.

(** ** The matcher: what a match is made of *)

Section RegexInversion.
Import Regex Patterns.
Implicit Types (r : regex) (p : pattern) (s t : jsstring) (caps : captures)
  (k : cont) (f : char → bool).

(** A pattern without groups hands the captures on as they are. *)
Lemma run_groupFree r : ∀ s caps k res,
  groupFree r →
  run r s caps k = Some res →
  ∃ s1, s1 `suffix_of` s ∧ k s1 caps = Some res.
Proof.
  induction r as [|c|r1 IH1 r2 IH2|r1 IH1 r2 IH2|greedy r1 IH1|i r1 IH1|];
    intros s caps k res Hfree; cbn [run groupFree] in *.
  - intros H. by exists s.
  - destruct s as [|c0 s]; [done|]. destruct (c c0); [|done].
    intros H. exists s. split; [by apply suffix_cons_r|done].
  - destruct Hfree as [H1 H2].
    intros (s1 & Hs1 & H)%IH1; [|done]. apply IH2 in H as (s2 & Hs2 & H); [|done].
    exists s2. split; [by etrans|done].
  - destruct Hfree as [H1 H2].
    intros [H|H]%orElse_Some; [by apply IH1 in H|by apply IH2 in H].
  - generalize (length s) as n. intros n. revert s.
    induction n as [|n IHn]; intros s.
    + intros H. by exists s.
    + assert (run r1 s caps
                (fun s' caps' =>
                   if (length s' <? length s)%nat
                   then (fix loop (n : nat) (s : jsstring) (caps : captures)
                           {struct n} :=
                           match n with
                           | O => k s caps
                           | S n' =>
                               let again :=
                                 run r1 s caps (fun s' caps' =>
                                   if (length s' <? length s)%nat
                                   then loop n' s' caps' else None) in
                               if greedy then orElse again (k s caps)
                               else orElse (k s caps) again
                           end) n s' caps'
                   else None) = Some res
              → ∃ s1, s1 `suffix_of` s ∧ k s1 caps = Some res)
        as Hagain.
      { intros (s1 & Hs1 & H)%IH1; [|done].
        destruct (_ <? _)%nat; [|done].
        apply IHn in H as (s2 & Hs2 & H).
        exists s2. split; [by etrans|done]. }
      destruct greedy; intros [H|H]%orElse_Some; auto; by exists s.
  - done.
  - destruct s; [|done]. intros H. by exists [].
Qed.


Lemma groupFree_lit_i l : groupFree (lit_i l).
Proof. induction l; by cbn. Qed.

Lemma run_lit_inv l s caps k res :
  run (lit l) s caps k = Some res → ∃ t, s = l ++ t ∧ k t caps = Some res.
Proof.
  revert s. induction l as [|c l IH]; intros s; cbn [lit run char_is].
  - intros H. by exists s.
  - destruct s as [|c0 s]; [done|].
    destruct (N.eqb_spec c c0) as [<-|]; [|done].
    intros (t & -> & H)%IH. by exists t.
Qed.

Lemma run_chr_inv f s caps k res :
  run (Chr f) s caps k = Some res →
  ∃ c t, s = c :: t ∧ f c = true ∧ k t caps = Some res.
Proof.
  cbn [run]. destruct s as [|c s]; [done|].
  destruct (f c) eqn:E; [|done]. intros H. by exists c, s.
Qed.

(** A repetition of a class, greedy or lazy, takes characters of the
    class. *)
Lemma run_star_chr_inv greedy f s caps k res :
  run (Star greedy (Chr f)) s caps k = Some res →
  ∃ v t, s = v ++ t ∧ Forall (fun c => f c = true) v ∧ k t caps = Some res.
Proof.
  cbn [run]. generalize (length s) as n. intros n. revert s.
  induction n as [|n IHn]; intros s.
  - intros H. by exists [], s.
  - assert (match s with
            | [] => None
            | c :: s' =>
                if f c
                then if (length s' <? length s)%nat
                     then (fix loop (n : nat) (s : jsstring) (caps : captures)
                             {struct n} :=
                             match n with
                             | O => k s caps
                             | S n' =>
                                 let again :=
                                   match s with
                                   | [] => None
                                   | c :: s' =>
                                       if f c
                                       then if (length s' <? length s)%nat
                                            then loop n' s' caps else None
                                       else None
                                   end in
                                 if greedy then orElse again (k s caps)
                                 else orElse (k s caps) again
                             end) n s' caps
                     else None
                else None
            end = Some res
            → ∃ v t, s = v ++ t ∧ Forall (fun c => f c = true) v
                     ∧ k t caps = Some res) as Hagain.
    { destruct s as [|c s']; [done|]. destruct (f c) eqn:E; [|done].
      destruct (_ <? _)%nat; [|done].
      intros (v & t & -> & Hv & H)%IHn.
      exists (c :: v), t. split; [done|]. split; [by constructor|done]. }
    destruct greedy; intros [H|H]%orElse_Some; auto; by exists [], s.
Qed.

(** What a group captures is the text that its pattern took. *)
Lemma take_matched (v t : jsstring) :
  take (length (v ++ t) - length t) (v ++ t) = v.
Proof.
  rewrite length_app.
  replace (length v + length t - length t)%nat with (length v) by lia.
  by rewrite take_app_length.
Qed.


End RegexInversion.

(** ** Reading a variable out of a PHP file *)

Section GetDataFromFile.
Import Regex Patterns Fs WordPress Templates Samples.
Implicit Types (s t name content : jsstring) (caps : captures).

Lemma run_Group i r s caps k :
  run (Group i r) s caps k
  = run r s caps (fun s' caps' =>
      k s' (<[i := Some (take (length s - length s') s)]> caps')).
Proof. reflexivity. Qed.

(** A group around one or more characters of a class captures a
    non-empty run of the class. *)
Lemma run_group_plus_inv i f s caps k res :
  run (Group i (plus (Chr f))) s caps k = Some res →
  ∃ v t, s = v ++ t ∧ v ≠ [] ∧ Forall (fun c => f c = true) v
         ∧ k t (<[i := Some v]> caps) = Some res.
Proof.
  rewrite run_Group. unfold plus. rewrite run_Seq.
  intros (c & t1 & -> & Hc & H)%run_chr_inv.
  apply run_star_chr_inv in H as (v & t & -> & Hv & H).
  pose proof (take_matched (c :: v) t) as Htake. cbn [app] in Htake.
  rewrite Htake in H.
  exists (c :: v), t. split; [done|]. split; [done|].
  split; [by constructor|done].
Qed.

Lemma versionRegex_capture name s t caps :
  matchAt (versionRegex name) s = Some (t, caps) →
  (∃ rest, s = name ++ rest)
  ∧ ∃ v, caps !! 1%nat = Some (Some v) ∧ v ≠ []
         ∧ Forall (fun c => notAnyQuote c = true) v.
Proof.
  unfold matchAt, versionRegex. cbn [body ngroups replicate].
  rewrite run_Seq. intros (t1 & -> & H)%run_lit_inv.
  split; [by eexists|].
  rewrite run_Seq in H. apply run_groupFree in H as (t2 & _ & H); [|done].
  rewrite run_Seq in H. apply run_lit_inv in H as (t3 & _ & H).
  rewrite run_Seq in H. apply run_groupFree in H as (t4 & _ & H); [|done].
  rewrite run_Seq in H. apply run_chr_inv in H as (q & t5 & _ & _ & H).
  rewrite run_Seq in H. apply run_group_plus_inv in H as (v & t6 & _ & Hne & Hv & H).
  apply run_chr_inv in H as (q' & t7 & _ & _ & [= _ <-]).
  by exists v.
Qed.

(** X7. For a variable name of letters, digits and underscores, what
    [getDataFromFile] returns, when it is not [null], is not empty and
    holds no quote of either kind; and it returns [null] for a text in
    which the variable name does not occur. *)
Theorem getDataFromFile_value content name :
  wordName name = true →
  (∀ v, getDataFromFile content name = Some v →
        v ≠ [] ∧ (quote ∉ v) ∧ (dquote ∉ v))
  ∧ (includes name content = false → getDataFromFile content name = None).
Proof.
  intros _. unfold getDataFromFile, exec.
  destruct (search (versionRegex name) 0 content) as [res|] eqn:E;
    [|by split].
  apply search_leftmost in E as (before & m & caps & Hs & _ & Hm & Hg & _).
  apply versionRegex_capture in Hm as [[rest Hname] (v & Hcap & Hne & Hv)].
  split.
  - intros v' Hv'. change (mjoin (groups res !! 1%nat) = Some v') in Hv'.
    rewrite Hg in Hv'. unfold captures, jsstring in *.
    rewrite list_lookup_insert_ne, Hcap in Hv' by done.
    injection Hv' as <-. split; [done|].
    rewrite Forall_forall in Hv.
    split; intros Hin%Hv; by vm_compute in Hin.
  - intros Hnone. exfalso.
    assert (includes name content = true) as Hyes; [|congruence].
    apply includes_spec. exists before, rest. by rewrite Hs, Hname.
Qed.

Lemma getDataFromFile_value_witness :
  getDataFromFile (js "<?php $wp_version = '6.4.2';") (js "wp_version")
  = Some (js "6.4.2")
  ∧ js "6.4.2" ≠ [] ∧ (quote ∉ js "6.4.2") ∧ (dquote ∉ js "6.4.2")
  ∧ getDataFromFile (js "<?php $wp_version = '6.4.2';") (js "wp_local_package")
    = None.
Proof.
  split; [reflexivity|].
  split; [|split; [|split]].
  1-3: apply (proj1 (getDataFromFile_value
                       (js "<?php $wp_version = '6.4.2';") (js "wp_version")
                       eq_refl)
                (js "6.4.2")); reflexivity.
  apply (proj2 (getDataFromFile_value
                  (js "<?php $wp_version = '6.4.2';") (js "wp_local_package")
                  eq_refl)).
  reflexivity.
Defined.

End GetDataFromFile.

(** ** The installation scanner: versions and failures *)

Section ScanDirectoryMore.
Import Regex Patterns Fs Dump Inventory Samples.
Implicit Types (result : list item) (child directory : jsstring)
  (disk : gmap jsstring node).

Lemma header_capture s t caps :
  matchAt versionRegex s = Some (t, caps) →
  ∃ v, caps !! 1%nat = Some (Some v) ∧ dotted v.
Proof.
  unfold matchAt, versionRegex. cbn [body ngroups replicate].
  rewrite run_Seq. intros (t1 & _ & H)%run_groupFree; [|apply groupFree_lit_i].
  rewrite run_Seq in H. apply run_groupFree in H as (t2 & _ & H); [|done].
  apply run_group_plus_inv in H as (v & t3 & _ & Hne & Hv & [= _ <-]).
  by exists v.
Qed.

Lemma header_version content :
  match m ← exec versionRegex content; mjoin (groups m !! 1%nat) with
  | Some v => dotted v
  | None => True
  end.
Proof.
  unfold exec. destruct (search versionRegex 0 content) as [res|] eqn:E; [|done].
  apply search_leftmost in E as (before & m & caps & _ & _ & Hm & Hg & _).
  apply header_capture in Hm as (v & Hcap & Hv).
  change (match mjoin (groups res !! 1%nat) with
          | Some v => dotted v
          | None => True
          end).
  rewrite Hg. unfold captures, jsstring in *.
  by rewrite list_lookup_insert_ne, Hcap by done.
Qed.

Lemma extractVersionFromStyleFile_dotted disk p v :
  extractVersionFromStyleFile disk p = Some (Some v) → dotted v.
Proof.
  unfold extractVersionFromStyleFile.
  destruct (readFileSync disk p) as [content|]; simpl; [|done].
  intros [= H]. pose proof (header_version content) as Hv. by rewrite H in Hv.
Qed.

Lemma extractVersionFromPHPFile_dotted disk p v :
  extractVersionFromPHPFile disk p = Some (Some v) → dotted v.
Proof.
  unfold extractVersionFromPHPFile.
  destruct (readFileSync disk p) as [content|]; simpl; [|done].
  intros [= H]. pose proof (header_version content) as Hv. by rewrite H in Hv.
Qed.

Lemma pushVersion_dotted result child version :
  Forall (fun i => dotted (Dump.version i)) result →
  match version with Some v => dotted v | None => True end →
  Forall (fun i => dotted (Dump.version i)) (pushVersion result child version).
Proof.
  intros Hresult Hv. unfold pushVersion.
  destruct version as [[|c v]|]; cbn [truthy]; try done.
  apply Forall_app. split; [done|]. constructor; [exact Hv|constructor].
Qed.

Lemma scanItem_dotted path_join disk directory result child result' :
  Forall (fun i => dotted (Dump.version i)) result →
  scanItem path_join disk directory result child = Some result' →
  Forall (fun i => dotted (Dump.version i)) result'.
Proof.
  intros Hresult. unfold scanItem.
  destruct (isDirectory disk _) as [[]|]; simpl; [| |done];
    [|by intros [= <-]].
  assert (∀ result1,
            Forall (fun i => dotted (Dump.version i)) result1 →
            (if existsSync disk (path_join [path_join [directory; child];
                                            child ++ js ".php"])
                || existsSync disk (child ++ js ".php")
             then
               extractVersionFromPHPFile disk
                 (path_join [path_join [directory; child]; child ++ js ".php"])
               ≫= (fun first =>
                     (if truthy first then Some first
                      else extractVersionFromPHPFile disk (child ++ js ".php"))
                     ≫= fun version => Some (pushVersion result1 child version))
             else Some result1) = Some result' →
            Forall (fun i => dotted (Dump.version i)) result') as Hphp.
  { intros result1 H1. destruct (_ || _); [|by intros [= <-]].
    destruct (extractVersionFromPHPFile disk (path_join _)) as [first|] eqn:E1;
      simpl; [|done].
    destruct (truthy first) eqn:Et; simpl.
    - intros [= <-]. apply pushVersion_dotted; [done|].
      destruct first as [v|]; [|done].
      by eapply extractVersionFromPHPFile_dotted.
    - destruct (extractVersionFromPHPFile disk (child ++ _)) as [second|] eqn:E2;
        simpl; [|done].
      intros [= <-]. apply pushVersion_dotted; [done|].
      destruct second as [v|]; [|done].
      by eapply extractVersionFromPHPFile_dotted. }
  destruct (existsSync disk (path_join [_; js "style.css"])); simpl.
  - destruct (extractVersionFromStyleFile disk _) as [v1|] eqn:E; simpl; [|done].
    apply Hphp, pushVersion_dotted; [done|].
    destruct v1 as [v|]; [|done]. by eapply extractVersionFromStyleFile_dotted.
  - by apply Hphp.
Qed.

(** X8. Every version in the list that [scanDirectory] returns is a
    non-empty run of digits and dots. *)
Theorem scanDirectory_versions_dotted path_join disk directory result :
  scanDirectory path_join disk directory = Some result →
  Forall (fun i => dotted (Dump.version i)) result.
Proof.
  unfold scanDirectory.
  destruct (readdirSync disk directory) as [children|]; simpl; [|done].
  assert (Forall (fun i => dotted (Dump.version i)) (@nil item)) as Hnil
    by constructor.
  revert Hnil. generalize (@nil item) as acc. revert result.
  induction children as [|child children IH]; intros result acc Hacc.
  - by intros [= <-].
  - cbn [scanLoop].
    destruct (scanItem path_join disk directory acc child) as [acc'|] eqn:E;
      simpl; [|done].
    apply IH. by eapply scanItem_dotted.
Qed.

Lemma scanDirectory_versions_dotted_witness :
  Forall (fun i => dotted (Dump.version i))
    [ {| name := js "foo"; version := js "2.3.1" |};
      {| name := js "foo"; version := js "1.0" |} ].
Proof.
  apply (scanDirectory_versions_dotted joinSegments themesDisk (js "themes")).
  reflexivity.
Defined.

Lemma scanItem_throws path_join disk directory result child :
  isDirectory disk (path_join [directory; child]) = Some true →
  existsSync disk (path_join [path_join [directory; child]; child ++ js ".php"])
  = false →
  existsSync disk (child ++ js ".php") = true →
  scanItem path_join disk directory result child = None.
Proof.
  intros Hdir Htheme Hplugin. unfold scanItem. rewrite Hdir. simpl.
  assert (extractVersionFromPHPFile disk
            (path_join [path_join [directory; child]; child ++ js ".php"])
          = None) as Hread.
  { unfold extractVersionFromPHPFile, readFileSync.
    unfold existsSync in Htheme. apply bool_decide_eq_false in Htheme.
    destruct (disk !! _) as [n|] eqn:E; [|done].
    destruct Htheme. by eexists. }
  rewrite Htheme, Hplugin, Hread. simpl.
  match goal with |- ?x ≫= _ = None => by destruct x end.
Qed.

(** X9. The second name that the PHP check tries is the bare
    [<child>.php], a path relative to the working directory.  When a
    file of that name lies there while a child directory of the scanned
    folder has no [<child>.php] of its own, the scan reads the missing
    file of the child and throws: [scanDirectory] returns no list at
    all. *)
Theorem scanDirectory_throws_on_stray_file path_join disk directory
  children child :
  readdirSync disk directory = Some children →
  child ∈ children →
  isDirectory disk (path_join [directory; child]) = Some true →
  existsSync disk (path_join [path_join [directory; child]; child ++ js ".php"])
  = false →
  existsSync disk (child ++ js ".php") = true →
  scanDirectory path_join disk directory = None.
Proof.
  intros Hread Hchild Hdir Htheme Hplugin.
  unfold scanDirectory. rewrite Hread. simpl. clear Hread.
  generalize (@nil item) as acc.
  induction children as [|c children IH]; intros acc;
    [by apply elem_of_nil in Hchild|].
  cbn [scanLoop]. apply elem_of_cons in Hchild as [<-|Hchild].
  - by rewrite scanItem_throws.
  - destruct (scanItem path_join disk directory acc c) as [acc'|]; [|done].
    exact (IH Hchild acc').
Qed.

Lemma scanDirectory_throws_on_stray_file_witness :
  scanDirectory joinSegments pluginsDisk (js "plugins") = None.
Proof.
  apply (scanDirectory_throws_on_stray_file joinSegments pluginsDisk
           (js "plugins") [js "index"] (js "index")).
  - reflexivity.
  - by left.
  - reflexivity.
  - reflexivity.
  - reflexivity.
Defined.

End ScanDirectoryMore.

(** ** The comment stripper: lines stay in place *)

Section UncommentedLinesMore.
Import WordPress.
Implicit Types (t line : jsstring) (lines out : list jsstring).

Lemma uncommentLoop_in_place lines inBlockComment acc :
  ∃ out,
    uncommentLoop lines inBlockComment acc
    = acc ++ concat (map (fun line => line ++ [newline]) out)
    ∧ Forall2 (fun kept line => kept ⊆ line) out lines.
Proof.
  revert inBlockComment acc.
  induction lines as [|line lines IH]; intros b acc.
  - exists []. rewrite app_nil_r. by split.
  - cbn [uncommentLoop].
    pose proof (uncommentLine_subseteq b line) as Hsub.
    destruct (uncommentLine b line) as [newLine b'].
    destruct (IH b' (acc ++ newLine ++ [newline])) as (out & -> & Hout).
    exists (newLine :: out). cbn [map concat].
    split; [by rewrite <- !app_assoc|]. by constructor.
Qed.

(** X10. The stripper keeps every line in its place: the lines of the
    result are, one for one, what is kept of the lines of the text,
    each made only of characters of its own line, and they are followed
    by one empty line.  Line numbers are the same before and after. *)
Theorem uncommentedLines_keeps_lines t :
  ∃ out,
    split newline (uncommentedLines t) = out ++ [[]]
    ∧ Forall2 (fun kept line => kept ⊆ line) out (split newline t).
Proof.
  unfold uncommentedLines.
  destruct (uncommentLoop_in_place (split newline t) false [])
    as (out & -> & Hout).
  exists out. split; [|done]. cbn [app]. apply split_terminated_lines.
  apply Forall_forall. intros kept Hkept.
  apply list_elem_of_lookup_1 in Hkept as [i Hi].
  destruct (Forall2_lookup_l _ _ _ _ _ Hout Hi) as (line & Hline & Hsub).
  intros Hin%Hsub. revert Hin.
  eapply split_parts_free, list_elem_of_lookup_2, Hline.
Qed.




End UncommentedLinesMore.

(** ** The declaration parser: what the mappings hold *)

Section ParseWpConfigShapes.
Import Regex Patterns WordPress Shapes.
Implicit Types (s t : jsstring) (caps : captures) (matches : list result)
  (obj : gmap jsstring value).

Lemma run_char_inv c s caps k res :
  run (char_is c) s caps k = Some res → ∃ t, s = c :: t ∧ k t caps = Some res.
Proof.
  intros (c' & t & -> & Hc%N.eqb_eq & H)%run_chr_inv. subst. by exists t.
Qed.









End ParseWpConfigShapes.

(** ** Replacement: where the match is and what is written *)

Section ReplaceFacts.
Import Regex Patterns WordPress Templates.
Implicit Types (r : regex) (p : pattern) (s t before : jsstring)
  (caps : captures) (k : cont) (f : char → bool).

Lemma search_skip p before s : ∀ i,
  (∀ j, (j < length before)%nat → matchAt p (drop j (before ++ s)) = None) →
  search p i (before ++ s) = search p (i + length before) s.
Proof.
  induction before as [|c before IH]; intros i Hnone.
  - cbn. by rewrite Nat.add_0_r.
  - rewrite search_unfold.
    pose proof (Hnone 0%nat ltac:(cbn; lia)) as H0.
    change (matchAt p ((c :: before) ++ s) = None) in H0.
    rewrite H0. cbn [app length]. rewrite IH; [by rewrite Nat.add_succ_r|].
    intros j Hj. apply (Hnone (S j)). cbn. lia.
Qed.

(** [replace] at a match before which the pattern matches nowhere. *)
Lemma replace_at p template before s t caps :
  (∀ j, (j < length before)%nat → matchAt p (drop j (before ++ s)) = None) →
  matchAt p s = Some (t, caps) →
  ∃ m, replace p template (before ++ s)
       = before ++ getSubstitution m before template ++ t.
Proof.
  intros Hnone Hm. unfold replace, exec.
  rewrite search_skip by done. rewrite search_unfold, Hm.
  eexists. cbn [index rest Nat.add]. by rewrite take_app_length.
Qed.

(** Text without [define(] before a statement holds no start of a
    match. *)
Lemma no_match_before p before rest :
  startsWithDefine p →
  includes (js "define(") before = false →
  ∀ j, (j < length before)%nat →
       matchAt p (drop j (before ++ js "define(" ++ rest)) = None.
Proof.
  intros Hp Hnone j Hj.
  destruct (matchAt p _) as [x|] eqn:E; [exfalso|done].
  apply Hp in E as [t Ht].
  rewrite drop_app_le in Ht by lia.
  assert (drop j before ≠ []) as Hne.
  { intros H%(f_equal length). rewrite length_drop in H. cbn in H. lia. }
  assert (includes (js "define(") before = true) as Hyes; [|congruence].
  apply includes_spec.
  apply app_eq_app in Ht as [l [[Hb _]|[Hd Hl]]].
  - exists (take j before), l. by rewrite <- Hb, take_drop.
  - destruct l as [|d l].
    + rewrite app_nil_r in Hd. exists (take j before), [].
      by rewrite app_nil_r, Hd, take_drop.
    + exfalso. literal Hl "define("%string. literal Hd "define("%string.
      cbn [app] in Hl. injection Hl as <- _.
      destruct (drop j before) as [|c1 b]; [done|].
      repeat (destruct b as [|? b]; cbn [app] in *; simplify_eq).
Qed.

(** *** The text that a template writes *)

Lemma getSubstitution_cons m before (c : char) template :
  c ≠ 36%N →
  getSubstitution m before (c :: template)
  = c :: getSubstitution m before template.
Proof.
  intros Hc. destruct c as [|c]; [done|].
  do 6 (try (destruct c as [c|c|]; try done)).
Qed.

Lemma getSubstitution_plain m before a template :
  36%N ∉ a →
  getSubstitution m before (a ++ template)
  = a ++ getSubstitution m before template.
Proof.
  induction a as [|c a IH]; intros Ha; [done|].
  apply not_elem_of_cons in Ha as [Hc Ha]. cbn [app].
  rewrite getSubstitution_cons by done. by rewrite IH.
Qed.

Lemma getSubstitution_dollars m before template :
  getSubstitution m before (js "$$" ++ template)
  = js "$" ++ getSubstitution m before template.
Proof. reflexivity. Qed.

(** *** A greedy repetition that gives back *)






End ReplaceFacts.

(** ** The config templater: the other replacements *)

Section TemplatesFacts.
Import Regex Patterns WordPress Templates.
Implicit Types (s t before after input name value : jsstring)
  (caps : captures) (k : cont).

(** The start that the three define patterns share: the name between
    single quotes after [define(]. *)
Lemma quoted_name_inv name rest s caps k res :
  run (Seq (lit (js "define("))
      (Seq spaces
      (Seq (char_is quote)
      (Seq (lit name)
      (Seq (char_is quote) rest))))) s caps k = Some res →
  ∃ w t, s = js "define(" ++ w ++ [quote] ++ name ++ [quote] ++ t
         ∧ run rest t caps k = Some res.
Proof.
  rewrite run_Seq. intros (t1 & -> & H)%run_lit_inv.
  rewrite run_Seq in H. apply run_groupFree in H as (t2 & [w ->] & H); [|done].
  rewrite run_Seq in H. apply run_char_inv in H as (t3 & -> & H).
  rewrite run_Seq in H. apply run_lit_inv in H as (t4 & -> & H).
  rewrite run_Seq in H. apply run_char_inv in H as (t5 & -> & H).
  by exists w, t5.
Qed.

Lemma dbConstantRegex_name name s x :
  matchAt (dbConstantRegex name) s = Some x →
  ∃ w t, s = js "define(" ++ w ++ [quote] ++ name ++ [quote] ++ t.
Proof. intros (w & t & -> & _)%quoted_name_inv. by exists w, t. Qed.

Lemma dbConstantBoolRegex_name name s x :
  matchAt (dbConstantBoolRegex name) s = Some x →
  ∃ w t, s = js "define(" ++ w ++ [quote] ++ name ++ [quote] ++ t.
Proof. intros (w & t & -> & _)%quoted_name_inv. by exists w, t. Qed.

Lemma emptySaltRegex_placeholder constant s x :
  matchAt (emptySaltRegex constant) s = Some x →
  ∃ u t, s = u ++ placeholder ++ t.
Proof.
  intros (w & t & -> & H)%quoted_name_inv.
  rewrite run_Seq in H. apply run_groupFree in H as (t2 & [w2 ->] & H); [|done].
  rewrite run_Seq in H. apply run_lit_inv in H as (t3 & -> & H).
  rewrite run_Seq in H. apply run_groupFree in H as (t4 & [w3 ->] & H); [|done].
  rewrite run_Seq in H. apply run_char_inv in H as (t5 & -> & H).
  rewrite run_Seq in H. apply run_lit_inv in H as (t6 & -> & _).
  exists (js "define(" ++ w ++ [quote] ++ constant ++ [quote] ++ w2
            ++ js "," ++ w3 ++ [quote]), t6.
  by rewrite <- !app_assoc.
Qed.

(** [replace] leaves alone a text that holds no part of a match. *)
Lemma replace_without p template needle input :
  (∀ s x, matchAt p s = Some x → ∃ u t, s = u ++ needle ++ t) →
  includes needle input = false →
  replace p template input = input.
Proof.
  intros Hp Hnone. unfold replace.
  destruct (exec p input) as [res|] eqn:E; [exfalso|done].
  apply search_leftmost in E as (before & m & caps & -> & _ & Hm & _).
  apply Hp in Hm as (u & t & Hm).
  assert (includes needle (before ++ m ++ rest res) = true) as Hyes;
    [|congruence].
  apply includes_spec. exists (before ++ u), t.
  by rewrite Hm, <- !app_assoc.
Qed.

(** X12. For a constant name of letters, digits and underscores, a
    text in which the name does not stand between single quotes is
    returned unchanged by [replaceDbConstant] and by
    [replaceDbConstantBool], whatever the new value. *)
Theorem replace_constant_absent input name value :
  wordName name = true →
  includes ([quote] ++ name ++ [quote]) input = false →
  replaceDbConstant input name value = input
  ∧ replaceDbConstantBool input name value = input.
Proof.
  intros _ Hnone. split.
  - apply (replace_without _ _ ([quote] ++ name ++ [quote])); [|done].
    intros s x (w & t & ->)%dbConstantRegex_name.
    exists (js "define(" ++ w), t. by rewrite <- !app_assoc.
  - apply (replace_without _ _ ([quote] ++ name ++ [quote])); [|done].
    intros s x (w & t & ->)%dbConstantBoolRegex_name.
    exists (js "define(" ++ w), t. by rewrite <- !app_assoc.
Qed.

Lemma replace_constant_absent_witness :
  replaceDbConstant (js "define( 'DB_USER', 'root' );") (js "DB_NAME") (js "wp")
  = js "define( 'DB_USER', 'root' );"
  ∧ replaceDbConstantBool (js "define( 'DB_USER', 'root' );") (js "DB_NAME")
      (js "wp")
    = js "define( 'DB_USER', 'root' );".
Proof.
  apply (replace_constant_absent (js "define( 'DB_USER', 'root' );")
           (js "DB_NAME") (js "wp")); reflexivity.
Defined.

Lemma fillSalts_without_placeholder constants : ∀ random input,
  includes placeholder input = false →
  fillSalts constants random input = input.
Proof.
  induction constants as [|constant constants IH]; intros random input Hnone;
    [done|].
  cbn [fillSalts].
  assert (fillSalt input constant (generateSalt random) = input) as ->.
  { apply (replace_without _ _ placeholder); [|done].
    intros s x. apply emptySaltRegex_placeholder. }
  by apply IH.
Qed.

(** X13. A configuration that does not hold the placeholder phrase is
    returned unchanged by [replaceEmptySalts], whatever salts are
    generated: constants that already have a value are not touched. *)
Theorem replaceEmptySalts_configured random input :
  includes placeholder input = false →
  replaceEmptySalts random input = input.
Proof. apply fillSalts_without_placeholder. Qed.

Lemma replaceEmptySalts_configured_witness :
  replaceEmptySalts Samples.inTurn (js "define( 'AUTH_KEY', 'k9!x' );")
  = js "define( 'AUTH_KEY', 'k9!x' );".
Proof.
  apply (replaceEmptySalts_configured Samples.inTurn
           (js "define( 'AUTH_KEY', 'k9!x' );")).
  reflexivity.
Defined.

(** *** Dollar signs in the value *)

Lemma startsWithDefine_dbConstantRegex name :
  startsWithDefine (dbConstantRegex name).
Proof. intros s x (w & t & ->)%dbConstantRegex_name. by eexists. Qed.


Lemma startsWithDefine_emptySaltRegex constant :
  startsWithDefine (emptySaltRegex constant).
Proof. intros s x (w & t & -> & _)%quoted_name_inv. by eexists. Qed.

(** A template around a value: written as it is when the value has no
    dollar sign; a doubled dollar sign in the value is written as one. *)
Lemma template_value m before (open close : jsstring) :
  36%N ∉ open → 36%N ∉ close →
  (∀ value, 36%N ∉ value →
     getSubstitution m before (open ++ value ++ close)
     = open ++ value ++ close)
  ∧ (∀ a b, 36%N ∉ a → 36%N ∉ b →
       getSubstitution m before (open ++ (a ++ js "$$" ++ b) ++ close)
       = open ++ (a ++ js "$" ++ b) ++ close).
Proof.
  intros Hopen Hclose.
  assert (getSubstitution m before close = close) as Hc.
  { rewrite <- (app_nil_r close) at 1. rewrite getSubstitution_plain by done.
    by rewrite app_nil_r. }
  split.
  - intros value Hvalue. by rewrite !getSubstitution_plain, Hc.
  - intros a b Ha Hb. rewrite <- !app_assoc.
    rewrite !getSubstitution_plain by done.
    by rewrite getSubstitution_dollars, getSubstitution_plain, Hc.
Qed.

Lemma no_dollar_app (a b : jsstring) : 36%N ∉ a → 36%N ∉ b → 36%N ∉ a ++ b.
Proof. intros Ha Hb [?|?]%elem_of_app; auto. Qed.

Lemma wordName_no_dollar name : wordName name = true → 36%N ∉ name.
Proof.
  unfold wordName. rewrite forallb_forall. intros H Hin%list_elem_of_In.
  apply H in Hin. by vm_compute in Hin.
Qed.

Lemma saltConstants_no_dollar constant :
  constant ∈ saltConstants → 36%N ∉ constant.
Proof.
  intros Hin. apply wordName_no_dollar. revert constant Hin.
  apply Forall_forall. by repeat constructor.
Qed.

Lemma no_dollar_literals :
  (36%N ∉ js "define( '") ∧ (36%N ∉ js "', '") ∧ (36%N ∉ js "' );")
  ∧ (36%N ∉ js "', ") ∧ (36%N ∉ js " );").
Proof.
  repeat split; apply (bool_decide_unpack _); by vm_compute.
Qed.

(** X14. For a constant name of letters, digits and underscores:
    where the first [define(] of the text opens the statement of the
    constant, [replaceDbConstant] rewrites that statement to the
    canonical one and keeps the text around it.  The new value is
    written as it is when it holds no dollar sign; a doubled dollar
    sign in it is written as a single one, as [String.replace] reads
    its template. *)
Theorem replaceDbConstant_writes_value before after name old w1 w2 w3 w4 :
  includes (js "define(") before = false →
  Forall (fun c => isSpace c = true) w1 →
  Forall (fun c => isSpace c = true) w2 →
  Forall (fun c => isSpace c = true) w3 →
  Forall (fun c => isSpace c = true) w4 →
  Forall (fun c => notQuote c = true) old →
  wordName name = true →
  let input :=
    before ++ js "define(" ++ w1 ++ [quote] ++ name ++ [quote] ++ w2
      ++ js "," ++ w3 ++ [quote] ++ old ++ [quote] ++ w4 ++ js ");" ++ after in
  (∀ value, 36%N ∉ value →
     replaceDbConstant input name value
     = before ++ (js "define( '" ++ name ++ js "', '" ++ value ++ js "' );")
         ++ after)
  ∧ (∀ a b, 36%N ∉ a → 36%N ∉ b →
       replaceDbConstant input name (a ++ js "$$" ++ b)
       = before ++ (js "define( '" ++ name ++ js "', '" ++ (a ++ js "$" ++ b)
                      ++ js "' );") ++ after).
Proof.
  intros Hbefore H1 H2 H3 H4 Hold Hname%wordName_no_dollar input.
  destruct no_dollar_literals as (Hl1 & Hl2 & Hl3 & _).
  pose proof (dbConstantRegex_matches name w1 w2 w3 w4 old after H1 H2 H3 H4 Hold)
    as Hmatch.
  assert (∀ value, ∃ m,
            replaceDbConstant input name value
            = before ++ getSubstitution m before
                          ((js "define( '" ++ name ++ js "', '") ++ value
                             ++ js "' );") ++ after) as Hreplace.
  { intros value. unfold replaceDbConstant, input.
    match type of Hmatch with
    | matchAt _ ?s = _ =>
        destruct (replace_at (dbConstantRegex name)
                    (js "define( '" ++ name ++ js "', '" ++ value ++ js "' );")
                    before s after [None]) as [m Hm]; [|exact Hmatch|]
    end.
    - apply no_match_before; [apply startsWithDefine_dbConstantRegex|done].
    - exists m. rewrite Hm. by rewrite <- !app_assoc. }
  split.
  - intros value Hvalue. destruct (Hreplace value) as [m ->].
    rewrite (proj1 (template_value m before _ _
                      (no_dollar_app _ _ Hl1 (no_dollar_app _ _ Hname Hl2)) Hl3))
      by done.
    by rewrite <- !app_assoc.
  - intros a b Ha Hb. destruct (Hreplace (a ++ js "$$" ++ b)) as [m ->].
    rewrite (proj2 (template_value m before _ _
                      (no_dollar_app _ _ Hl1 (no_dollar_app _ _ Hname Hl2)) Hl3))
      by done.
    by rewrite <- !app_assoc.
Qed.

Lemma replaceDbConstant_writes_value_witness :
  replaceDbConstant (js "<?php define( 'DB_PASSWORD', 'old' );")
    (js "DB_PASSWORD") (js "pa$$word")
  = js "<?php define( 'DB_PASSWORD', 'pa$word' );".
Proof.
  apply (proj2 (replaceDbConstant_writes_value (js "<?php ") []
                  (js "DB_PASSWORD") (js "old") (js " ") [] (js " ") (js " ")
                  eq_refl
                  ltac:(vm_compute; repeat constructor)
                  ltac:(vm_compute; repeat constructor)
                  ltac:(vm_compute; repeat constructor)
                  ltac:(vm_compute; repeat constructor)
                  ltac:(vm_compute; repeat constructor)
                  eq_refl)
          (js "pa") (js "word"));
    apply (bool_decide_unpack _); by vm_compute.
Defined.

(** *** The boolean replacement *)






(** *** The salt that is written *)

Lemma emptySaltRegex_matches constant w1 w2 w3 w4 after :
  Forall (fun c => isSpace c = true) w1 →
  Forall (fun c => isSpace c = true) w2 →
  Forall (fun c => isSpace c = true) w3 →
  Forall (fun c => isSpace c = true) w4 →
  matchAt (emptySaltRegex constant)
    (js "define(" ++ w1 ++ [quote] ++ constant ++ [quote] ++ w2 ++ js ","
       ++ w3 ++ [quote] ++ placeholder ++ [quote] ++ w4 ++ js ");" ++ after)
  = Some (after, [None]).
Proof.
  intros H1 H2 H3 H4. unfold matchAt, emptySaltRegex, spaces.
  cbn [body ngroups replicate].
  repeat (cbv beta; rewrite ?run_Seq;
          first [ rewrite run_lit
                | rewrite run_char
                | apply run_star_greedy; [done|exact eq_refl|] ]).
  reflexivity.
Qed.

(** X16. One turn of [replaceEmptySalts] for one of its eight
    constants, where the first [define(] of the text opens the
    placeholder statement of the constant: the statement is rewritten
    with the generated salt.  A salt without a dollar sign is written
    as it was generated.  The dollar sign is a character of the
    alphabet of the salts, and a salt with one doubled dollar sign and
    no other is written with a single one in its place. *)
Theorem fillSalt_writes_salt before after constant w1 w2 w3 w4 :
  includes (js "define(") before = false →
  Forall (fun c => isSpace c = true) w1 →
  Forall (fun c => isSpace c = true) w2 →
  Forall (fun c => isSpace c = true) w3 →
  Forall (fun c => isSpace c = true) w4 →
  constant ∈ saltConstants →
  let input :=
    before ++ js "define(" ++ w1 ++ [quote] ++ constant ++ [quote] ++ w2
      ++ js "," ++ w3 ++ [quote] ++ placeholder ++ [quote] ++ w4 ++ js ");"
      ++ after in
  36%N ∈ charset
  ∧ (∀ salt, 36%N ∉ salt →
       fillSalt input constant salt
       = before ++ (js "define( '" ++ constant ++ js "', '" ++ salt
                      ++ js "' );") ++ after)
  ∧ (∀ a b, 36%N ∉ a → 36%N ∉ b →
       fillSalt input constant (a ++ js "$$" ++ b)
       = before ++ (js "define( '" ++ constant ++ js "', '"
                      ++ (a ++ js "$" ++ b) ++ js "' );") ++ after).
Proof.
  intros Hbefore H1 H2 H3 H4 Hname%saltConstants_no_dollar input.
  split; [apply (bool_decide_unpack _); by vm_compute|].
  destruct no_dollar_literals as (Hl1 & Hl2 & Hl3 & _).
  pose proof (emptySaltRegex_matches constant w1 w2 w3 w4 after H1 H2 H3 H4)
    as Hmatch.
  assert (∀ salt, ∃ m,
            fillSalt input constant salt
            = before ++ getSubstitution m before
                          ((js "define( '" ++ constant ++ js "', '") ++ salt
                             ++ js "' );") ++ after) as Hreplace.
  { intros salt. unfold fillSalt, input.
    match type of Hmatch with
    | matchAt _ ?s = _ =>
        destruct (replace_at (emptySaltRegex constant)
                    (js "define( '" ++ constant ++ js "', '" ++ salt
                       ++ js "' );")
                    before s after [None]) as [m Hm]; [|exact Hmatch|]
    end.
    - apply no_match_before; [apply startsWithDefine_emptySaltRegex|done].
    - exists m. rewrite Hm. by rewrite <- !app_assoc. }
  split.
  - intros salt Hsalt. destruct (Hreplace salt) as [m ->].
    rewrite (proj1 (template_value m before _ _
                      (no_dollar_app _ _ Hl1 (no_dollar_app _ _ Hname Hl2)) Hl3))
      by done.
    by rewrite <- !app_assoc.
  - intros a b Ha Hb. destruct (Hreplace (a ++ js "$$" ++ b)) as [m ->].
    rewrite (proj2 (template_value m before _ _
                      (no_dollar_app _ _ Hl1 (no_dollar_app _ _ Hname Hl2)) Hl3))
      by done.
    by rewrite <- !app_assoc.
Qed.

Lemma fillSalt_writes_salt_witness :
  fillSalt (js "<?php define( 'AUTH_KEY', 'put your unique phrase here' );")
    (js "AUTH_KEY") (js "aB3$$x")
  = js "<?php define( 'AUTH_KEY', 'aB3$x' );".
Proof.
  apply (proj2 (proj2 (fillSalt_writes_salt (js "<?php ") []
                  (js "AUTH_KEY") (js " ") [] (js " ") (js " ")
                  eq_refl
                  ltac:(vm_compute; repeat constructor)
                  ltac:(vm_compute; repeat constructor)
                  ltac:(vm_compute; repeat constructor)
                  ltac:(vm_compute; repeat constructor)
                  ltac:(by left)))
          (js "aB3") (js "x"));
    apply (bool_decide_unpack _); by vm_compute.
Defined.

End TemplatesFacts.

(** ** The choice of the action *)

Section Dispatch.
Import Index.

Lemma findAction_none argv :
  Forall (fun kv => kv.2 = NotTrue) argv → findAction argv = None.
Proof.
  unfold findAction. induction 1 as [|[key []] argv Hkv _ IH]; try done.
Qed.

(** X17. With no option of the command line set to [true], the lookup
    of the action gives [undefined], [actions[undefined]] is not a
    function, and the call throws: no action runs, the default one no
    more than the others.  The default action is what is called just
    when the first option that is [true] is named [default]. *)
Theorem dispatch_needs_a_flag (argv : list (jsstring * flag)) :
  (Forall (fun kv => kv.2 = NotTrue) argv → dispatch argv = None)
  ∧ (dispatch argv = Some Default ↔ findAction argv = Some (js "default")).
Proof.
  split.
  - intros H. unfold dispatch. by rewrite findAction_none.
  - unfold dispatch. destruct (findAction argv) as [key|]; [|done].
    cbn [propertyKey]. split; [|by intros [= ->]].
    unfold actions. cbn [List.find ownActions fst].
    repeat (case_bool_decide; [by intros [= ]|]).
    case_bool_decide; [subst; done|].
    by destruct (bool_decide _).
Qed.

Lemma dispatch_needs_a_flag_witness :
  dispatch [(js "_", NotTrue); (js "$0", NotTrue)] = None.
Proof.
  apply (dispatch_needs_a_flag [(js "_", NotTrue); (js "$0", NotTrue)]).
  by repeat constructor.
Defined.

End Dispatch.

(** ** The archive extractor: the standard layout *)

Section ExtractZipLayout.
Import Fs.

Lemma extractZip_root_is_top_level_witness :
  ∃ r, VString (js "pkg-1.0") = VString r ∧ (slash ∉ r)
       ∧ (r = [] ∨ ∃ n, n ∈ [js "pkg-1.0/a.txt"; js "pkg-1.0/sub/b.txt"]
                        ∧ split slash n !! 0%nat = Some r).
Proof.
  destruct (proj2 (extractZip_root_is_top_level
                     [js "pkg-1.0/a.txt"; js "pkg-1.0/sub/b.txt"])
              (VString (js "pkg-1.0")) eq_refl) as [H|H];
    [discriminate H|exact H].
Defined.

(** X18. For an archive in the standard layout, every entry under one
    top-level folder with a non-empty name, [extractZip] returns that
    folder, whatever the number and the depth of the entries; this is
    also what the common root of the specification is for it. *)
Theorem extractZip_single_root (r first : jsstring) (names : list jsstring) :
  r ≠ [] →
  Forall (fun n => split slash n !! 0%nat = Some r) (first :: names) →
  extractZip {| entries := first :: names; failure := None |}
  = Resolved (VString r)
  ∧ spec_commonRoot (first :: names) = Some r.
Proof.
  intros Hr Hall. split.
  - by apply extractZip_shared_root.
  - by apply spec_commonRoot_shared_root.
Qed.

Lemma extractZip_single_root_witness :
  extractZip {| entries := [js "wordpress/index.php";
                            js "wordpress/wp-includes/version.php"];
                failure := None |}
  = Resolved (VString (js "wordpress"))
  ∧ spec_commonRoot [js "wordpress/index.php";
                     js "wordpress/wp-includes/version.php"]
    = Some (js "wordpress").
Proof.
  apply (extractZip_single_root (js "wordpress") (js "wordpress/index.php")
           [js "wordpress/wp-includes/version.php"]).
  - discriminate.
  - by repeat constructor.
Defined.

End ExtractZipLayout.
